(** * A character classifier: PCA reduction and nearest neighbour

    Shallow embedding of [system.py]: feature extraction from character
    images, the two-pass PCA reduction that fits or reuses a basis kept in
    the model dictionary, and cosine nearest-neighbour classification.

    The embedding is generic in the scalar type: the program computes on
    IEEE binary64 numbers, and every definition below runs on Rocq's
    primitive floats through the instance [float64].  The two linear
    algebra routines the program calls and does not define ([numpy.cov],
    [scipy.linalg.eigh]) are an interface, [LinAlg]. *)

From Stdlib Require Import String List ZArith Bool Arith Lia Floats.
From Stdlib Require Import Permutation Sorted.
Import Corelib.Init.Datatypes.
Import ListNotations.

Definition label : Type := string.

Set Implicit Arguments.

(** ** Python outcomes *)

Inductive exn : Type :=
| ValueError
| IndexError
| KeyError.

Inductive result (A : Type) : Type :=
| Ok (a : A)
| Raise (e : exn).

Arguments Ok {A} a.
Arguments Raise {A} e.

Definition rbind {A B : Type} (r : result A) (k : A -> result B) : result B :=
  match r with
  | Ok a => k a
  | Raise e => Raise e
  end.

Definition is_ok {A : Type} (r : result A) : bool :=
  match r with
  | Ok _ => true
  | Raise _ => false
  end.

Fixpoint rmap {A B : Type} (f : A -> result B) (l : list A) : result (list B) :=
  match l with
  | [] => Ok []
  | x :: t => rbind (f x) (fun y => rbind (rmap f t) (fun ys => Ok (y :: ys)))
  end.

(** ** Scalars

    What the program asks of its numbers.  [fle] is the comparison [<=] of
    the machine, false as soon as one side is not a number; [fisnan]
    recognises such values. *)

Class Scalar (F : Type) : Type := {
  fzero : F;
  fadd : F -> F -> F;
  fsub : F -> F -> F;
  fmul : F -> F -> F;
  fdiv : F -> F -> F;
  fsqrt : F -> F;
  fle : F -> F -> bool;
  fisnan : F -> bool;
  fofnat : nat -> F
}.

(** ** Two-dimensional arrays

    A numpy array of two axes: its shape and its rows.  The shape is kept
    beside the rows so that an array with no row still has a width. *)

Record ndarray (F : Type) : Type := NdArray {
  nrows : nat;
  ncols : nat;
  rows : list (list F)
}.

Definition wf {F : Type} (a : ndarray F) : Prop :=
  length (rows a) = nrows a /\ Forall (fun r => length r = ncols a) (rows a).

Definition np_size {F : Type} (a : ndarray F) : nat := nrows a * ncols a.

(** [np.array] of a nested list and back. *)
Definition np_array {F : Type} (l : list (list F)) : ndarray F :=
  NdArray (length l) (length (hd [] l)) l.

Definition tolist {F : Type} (a : ndarray F) : list (list F) := rows a.

Fixpoint zip_with {A B C : Type} (f : A -> B -> C) (l : list A) (l' : list B) : list C :=
  match l, l' with
  | x :: t, y :: t' => f x y :: zip_with f t t'
  | _, _ => []
  end.

Fixpoint set_nth {A : Type} (i : nat) (x : A) (l : list A) : list A :=
  match i, l with
  | _, [] => []
  | O, _ :: t => x :: t
  | S i', y :: t => y :: set_nth i' x t
  end.

Definition enumerate {A : Type} (l : list A) : list (nat * A) :=
  combine (seq 0 (length l)) l.

(** [max] of a Python iterable: an empty one raises [ValueError]. *)
Definition py_max (l : list nat) : result nat :=
  match l with
  | [] => Raise ValueError
  | x :: t => Ok (fold_left Nat.max t x)
  end.

Section Arrays.
Context {F : Type} {SF : Scalar F}.

(** A sum of the values of a vector, added from left to right.  numpy adds
    long vectors pairwise and [np.dot] leaves the order to the BLAS
    routine, so on binary64 the last bits of a long sum can differ from
    the fold; the statements below are about the structure of the
    computation and hold for the scalar operations whatever they are, and
    the binary64 samples are made of small integers and halves, whose
    sums are exact in every order. *)
Definition np_sum (l : list F) : F := fold_left fadd l fzero.

(** [np.mean] with no axis: one scalar for the whole array. *)
Definition np_mean (a : ndarray F) : F :=
  fdiv (np_sum (concat (rows a))) (fofnat (np_size a)).

Definition sub_scalar (a : ndarray F) (c : F) : ndarray F :=
  NdArray (nrows a) (ncols a) (map (map (fun x => fsub x c)) (rows a)).

Definition add_scalar (a : ndarray F) (c : F) : ndarray F :=
  NdArray (nrows a) (ncols a) (map (map (fun x => fadd x c)) (rows a)).

Definition column (j : nat) (a : ndarray F) : list F :=
  map (fun r => nth j r fzero) (rows a).

Definition np_transpose (a : ndarray F) : ndarray F :=
  NdArray (ncols a) (nrows a) (map (fun j => column j a) (seq 0 (ncols a))).

Definition inner (r c : list F) : F := np_sum (zip_with fmul r c).

(** [np.dot] of two matrices; the inner dimensions must agree. *)
Definition np_dot (a b : ndarray F) : result (ndarray F) :=
  if ncols a =? nrows b
  then Ok (NdArray (nrows a) (ncols b)
             (map (fun r => map (fun c => inner r c) (rows (np_transpose b))) (rows a)))
  else Raise ValueError.

Definition np_fliplr (a : ndarray F) : ndarray F :=
  NdArray (nrows a) (ncols a) (map (@rev F) (rows a)).

(** [np.sqrt(np.sum(a * a, axis=1))] *)
Definition row_norms (a : ndarray F) : list F :=
  map (fun r => fsqrt (np_sum (zip_with fmul r r))) (rows a).

Definition np_outer (u v : list F) : ndarray F :=
  NdArray (length u) (length v) (map (fun x => map (fmul x) v) u).

(** Elementwise quotient of two arrays of one shape. *)
Definition np_divide (a b : ndarray F) : ndarray F :=
  NdArray (nrows a) (ncols a) (zip_with (zip_with fdiv) (rows a) (rows b)).

(** [np.argmax] along one row: the running maximum is replaced when the
    next value is not [<=] it, and the scan stops at the first value that is
    not a number. *)
Fixpoint argmax_from (mp : F) (best i : nat) (l : list F) : nat :=
  match l with
  | [] => best
  | x :: t =>
      if fisnan mp then best
      else if negb (fle x mp) then argmax_from x i (S i) t
      else argmax_from mp best (S i) t
  end.

Definition argmax_row (l : list F) : result nat :=
  match l with
  | [] => Raise ValueError
  | x :: t => Ok (argmax_from x 0 1 t)
  end.

(** [np.argmax(a, axis=1)]; an axis of length 0 raises [ValueError]. *)
Definition np_argmax_axis1 (a : ndarray F) : result (list nat) :=
  if ncols a =? 0 then Raise ValueError else rmap argmax_row (rows a).

End Arrays.

(** Indexing an array of labels by an array of indices. *)
Definition take {A : Type} (l : list A) (idx : list nat) : result (list A) :=
  rmap (fun k => match nth_error l k with
                 | Some x => Ok x
                 | None => Raise IndexError
                 end) idx.

(** ** Feature extraction *)

Section Features.
Context {F : Type} {SF : Scalar F}.

Definition get_bounding_box_size (images : list (ndarray F)) : result (nat * nat) :=
  rbind (py_max (map (@nrows F) images)) (fun height =>
  rbind (py_max (map (@ncols F) images)) (fun width =>
  Ok (height, width))).

(** [np.ones(bbox_size) * 255] *)
Definition blank_canvas (bbox_size : nat * nat) : list (list F) :=
  repeat (repeat (fofnat 255) (snd bbox_size)) (fst bbox_size).

Definition slice2 (h w : nat) (a : list (list F)) : list (list F) :=
  map (firstn w) (firstn h a).

(** [dst[0:h, 0:w] = src] for a source of [h] rows of [w] values. *)
Fixpoint assign_slice2 (h w : nat) (dst src : list (list F)) : list (list F) :=
  match h, dst, src with
  | S h', d :: dst', s :: src' => (s ++ skipn w d) :: assign_slice2 h' w dst' src'
  | _, _, _ => dst
  end.

(** The body of the loop: the row written for one image. *)
Definition padded_row (bbox_size : nat * nat) (image : ndarray F) : list F :=
  let padded_image := blank_canvas bbox_size in
  let h := Nat.min (nrows image) (fst bbox_size) in
  let w := Nat.min (ncols image) (snd bbox_size) in
  concat (assign_slice2 h w padded_image (slice2 h w (rows image))).

(** [np.empty]: the cells hold no meaningful value until they are assigned;
    the loop below assigns every row. *)
Definition np_empty (n m : nat) : ndarray F :=
  NdArray n m (repeat (repeat fzero m) n).

Definition set_row (i : nat) (r : list F) (a : ndarray F) : ndarray F :=
  NdArray (nrows a) (ncols a) (set_nth i r (rows a)).

Definition images_to_feature_vectors
    (images : list (ndarray F)) (bbox_size : option (nat * nat)) : result (ndarray F) :=
  rbind (match bbox_size with
         | None => get_bounding_box_size images
         | Some b => Ok b
         end) (fun bbox_size =>
  let nfeatures := fst bbox_size * snd bbox_size in
  let fvectors := np_empty (length images) nfeatures in
  Ok (fold_left (fun fvectors ii => set_row (fst ii) (padded_row bbox_size (snd ii)) fvectors)
                (enumerate images) fvectors)).

End Features.

(** ** The model and the library interface

    The model is the dictionary [model_data]: a field per key.  The key
    ['fvectors_train'] is absent until training has reduced its vectors. *)

Record Model (F : Type) : Type := mkModel {
  labels_train : list label;
  bbox_size : nat * nat;
  eigenvector : list (list F);
  noise_dim : Z;
  dim : Z;
  fvectors_train : option (list (list F))
}.

Definition set_eigenvector {F : Type} (v : list (list F)) (m : Model F) : Model F :=
  mkModel (labels_train m) (bbox_size m) v (noise_dim m) (dim m) (fvectors_train m).

Definition set_fvectors_train {F : Type} (x : list (list F)) (m : Model F) : Model F :=
  mkModel (labels_train m) (bbox_size m) (eigenvector m) (noise_dim m) (dim m) (Some x).

(** Two models that differ at most in their basis. *)
Definition same_but_basis {F : Type} (m m' : Model F) : Prop :=
  labels_train m' = labels_train m /\ bbox_size m' = bbox_size m /\
  noise_dim m' = noise_dim m /\ dim m' = dim m /\
  fvectors_train m' = fvectors_train m.

(** The calls made to the linear algebra libraries, in order. *)
Inductive libcall (F : Type) : Type :=
| CallCov (x : ndarray F) (rowvar : bool)
| CallEigh (a : ndarray F) (eigvals : Z * Z).

(** What [np.cov] returns.  Its last step squeezes the covariance matrix:
    for two variables or more the result is the square matrix, an array of
    two axes; for a single variable it is an array of no axis, holding the
    variance. *)
Inductive cov_result (F : Type) : Type :=
| Cov0 (c : F)
| Cov2 (a : ndarray F).

Arguments Cov0 {F} c.
Arguments Cov2 {F} a.

(** [np.cov(x, rowvar=...)], and [scipy.linalg.eigh(a, eigvals=(lo, hi))],
    which returns the selected eigenvalues, ascending, and a matrix whose
    columns are their eigenvectors, or raises. *)
Class LinAlg (F : Type) : Type := {
  np_cov : ndarray F -> bool -> cov_result F;
  eigh : ndarray F -> Z * Z -> result (list F * ndarray F)
}.

(** The state a call runs in: the model dictionary it was handed, which it
    may update in place, and the log of library calls.  An exception leaves
    the state as it was when raised. *)
Record world (F : Type) : Type := World {
  model : Model F;
  calls : list (libcall F)
}.

Definition M (F A : Type) : Type := world F -> result A * world F.

Definition ret {F A : Type} (a : A) : M F A := fun w => (Ok a, w).

Definition bind {F A B : Type} (c : M F A) (k : A -> M F B) : M F B :=
  fun w => match c w with
           | (Ok a, w') => k a w'
           | (Raise e, w') => (Raise e, w')
           end.

Definition lift {F A : Type} (r : result A) : M F A := fun w => (r, w).

Definition get_model {F : Type} : M F (Model F) := fun w => (Ok (model w), w).

Definition put_model {F : Type} (m : Model F) : M F unit :=
  fun w => (Ok tt, World m (calls w)).

Definition log {F : Type} (c : libcall F) : M F unit :=
  fun w => (Ok tt, World (model w) (calls w ++ [c])).

Declare Scope py_scope.
Delimit Scope py_scope with py.
Notation "x <- c ;; k" := (bind c (fun x => k))
  (at level 61, c at next level, right associativity) : py_scope.
Notation "c ;;; k" := (bind c (fun _ => k))
  (at level 61, right associativity) : py_scope.

(** ** PCA reduction *)

Section PCA.
Context {F : Type} {SF : Scalar F} {LA : LinAlg F}.
Local Open Scope py_scope.

Definition call_cov (x : ndarray F) (rowvar : bool) : M F (cov_result F) :=
  log (CallCov x rowvar) ;;; ret (np_cov x rowvar).

(** [covx.shape[0]]: the shape of an array of no axis is the empty tuple,
    and indexing it raises [IndexError]. *)
Definition shape0 (covx : cov_result F) : result Z :=
  match covx with
  | Cov0 _ => Raise IndexError
  | Cov2 a => Ok (Z.of_nat (nrows a))
  end.

(** [eigh] is handed what [np.cov] returned; on an array that is not a
    square matrix it raises [ValueError] before anything is computed. *)
Definition call_eigh (a : cov_result F) (eigvals : Z * Z) : M F (list F * ndarray F) :=
  match a with
  | Cov2 a => log (CallEigh a eigvals) ;;; lift (eigh a eigvals)
  | Cov0 _ => lift (Raise ValueError)
  end.

Definition doPCA (feature_vector : ndarray F) (d : Z) : M F (ndarray F) :=
  m <- get_model ;;
  let noise_dim := noise_dim m in
  let dim := dim m in
  let v := np_array (eigenvector m) in
  v <- (if np_size v =? 0 then
          covx <- call_cov feature_vector false ;;
          N <- lift (shape0 covx) ;;
          wv <- call_eigh covx (N - d, N - 1)%Z ;;
          let v := np_fliplr (snd wv) in
          (if (d =? dim)%Z
           then m <- get_model ;; put_model (set_eigenvector (tolist v) m)
           else ret tt) ;;;
          ret v
        else ret v) ;;
  pca_processed_data <-
    lift (np_dot (sub_scalar feature_vector (np_mean feature_vector)) v) ;;
  if (d =? noise_dim)%Z then
    r <- lift (np_dot pca_processed_data (np_transpose v)) ;;
    ret (add_scalar r (np_mean feature_vector))
  else ret pca_processed_data.

Definition reduce_dimensions (feature_vectors_full : ndarray F) : M F (ndarray F) :=
  m <- get_model ;;
  let noise_dim := noise_dim m in
  let dim := dim m in
  reconstructed_feature_vector <- doPCA feature_vectors_full noise_dim ;;
  reduced_feature_vector <- doPCA reconstructed_feature_vector dim ;;
  ret reduced_feature_vector.

(** [images_test] is what [utils.load_char_images(page_name)] returned. *)
Definition load_test_page (images_test : list (ndarray F)) : M F (ndarray F) :=
  m <- get_model ;;
  let bbox_size := bbox_size m in
  fvectors_test <- lift (images_to_feature_vectors images_test (Some bbox_size)) ;;
  fvectors_test_reduced <- reduce_dimensions fvectors_test ;;
  ret fvectors_test_reduced.

(** [images_train] and [labels_train] are what the loop over the pages
    accumulated.  The dictionary is created here, so the call runs in a
    state of its own and returns the finished model. *)
Definition process_training_data
    (images_train : list (ndarray F)) (labels_train : list label) : result (Model F) :=
  rbind (get_bounding_box_size images_train) (fun bbox_size =>
  rbind (images_to_feature_vectors images_train (Some bbox_size)) (fun fvectors_train_full =>
  let model_data := mkModel labels_train bbox_size [] 50%Z 10%Z None in
  match reduce_dimensions fvectors_train_full (World model_data []) with
  | (Ok fvectors_train, w) => Ok (set_fvectors_train (tolist fvectors_train) (model w))
  | (Raise e, _) => Raise e
  end)).

End PCA.

(** ** Classification *)

Section Classify.
Context {F : Type} {SF : Scalar F}.

(** [modtrain.transpose()] is [modtrain]: the array has one axis. *)
Definition nearest_neighbour
    (fvectors_train : ndarray F) (labels_train : list label) (fvectors_test : ndarray F)
  : result (list label) :=
  rbind (np_dot fvectors_test (np_transpose fvectors_train)) (fun x =>
  let modtest := row_norms fvectors_test in
  let modtrain := row_norms fvectors_train in
  let dist := np_divide x (np_outer modtest modtrain) in
  rbind (np_argmax_axis1 dist) (fun nearest =>
  take labels_train nearest)).

(** [np.array(page)] is [page]; a model with no ['fvectors_train'] raises
    [KeyError]. *)
Definition classify_page (page : ndarray F) (model : Model F) : result (list label) :=
  match fvectors_train model with
  | None => Raise KeyError
  | Some fv =>
      let fvectors_train := np_array fv in
      let labels_train := labels_train model in
      let fvectors_test := page in
      nearest_neighbour fvectors_train labels_train fvectors_test
  end.

End Classify.

(** The page and the model dictionary this call was handed are part of the
    state; the call returns the labels and touches neither. *)
Record handed (F : Type) : Type := Handed {
  the_page : ndarray F;
  the_model : Model F
}.

Definition correct_errors {F : Type}
    (labels : list label) (bboxes : list (list Z)) (s : handed F)
  : list label * handed F :=
  (labels, s).

(** ** Instances

    The numbers of the program: IEEE binary64, as Rocq's primitive floats. *)

#[export] Instance float64 : Scalar float := {
  fzero := 0%float;
  fadd := PrimFloat.add;
  fsub := PrimFloat.sub;
  fmul := PrimFloat.mul;
  fdiv := PrimFloat.div;
  fsqrt := PrimFloat.sqrt;
  fle := PrimFloat.leb;
  fisnan := PrimFloat.is_nan;
  fofnat := fun n => PrimFloat.of_uint63 (Uint63.of_Z (Z.of_nat n))
}.

(** A stand-in for the two library routines, enough to run the pipeline on
    small inputs.  [cov_columns] follows [numpy.cov]: with [rowvar] false
    the array is transposed, unless it has a single row, which numpy
    before version 2 reads as one variable; the rows of [X] are then the
    variables, each is centred on its own average, and the products are
    scaled by [1 / (observations - 1)]; last, the matrix is squeezed, so
    that a single variable gives an array of no axis.  [eigh_diagonal]
    solves the symmetric eigenproblem where it is trivial, on a diagonal
    matrix: the eigenvalues are the diagonal entries, sorted ascending,
    and the eigenvectors the matching unit vectors; the pair [(lo, hi)]
    selects positions in that order.  On any other matrix it raises. *)

Section StandIn.
Context {F : Type} {SF : Scalar F}.

Definition cov_columns (x : ndarray F) (rowvar : bool) : cov_result F :=
  let X := if negb rowvar && negb (nrows x =? 1) then np_transpose x else x in
  let n := ncols X in
  let avg := map (fun r => fdiv (np_sum r) (fofnat n)) (rows X) in
  let Xc := zip_with (fun r a => map (fun t => fsub t a) r) (rows X) avg in
  let fact := fdiv (fofnat 1) (fofnat (n - 1)) in
  let c := map (fun r => map (fun c => fmul (inner r c) fact) Xc) Xc in
  match c with
  | [[c00]] => Cov0 c00
  | _ => Cov2 (NdArray (nrows X) (nrows X) c)
  end.

Definition is_zero (x : F) : bool := fle x fzero && fle fzero x.

Definition is_diagonal (a : ndarray F) : bool :=
  (nrows a =? ncols a) && (length (rows a) =? nrows a) &&
  forallb (fun ir =>
     (length (snd ir) =? ncols a) &&
     forallb (fun jx => (fst jx =? fst ir) || is_zero (snd jx)) (enumerate (snd ir)))
    (enumerate (rows a)).

Fixpoint insert_by_value (p : nat * F) (l : list (nat * F)) : list (nat * F) :=
  match l with
  | [] => [p]
  | q :: t => if fle (snd p) (snd q) then p :: l else q :: insert_by_value p t
  end.

Definition ascending (l : list (nat * F)) : list (nat * F) :=
  fold_right insert_by_value [] l.

Definition unit_column (n k : nat) : list F :=
  map (fun i => if i =? k then fofnat 1 else fzero) (seq 0 n).

Definition eigh_diagonal (a : ndarray F) (eigvals : Z * Z) : result (list F * ndarray F) :=
  let N := nrows a in
  let lo := fst eigvals in
  let hi := snd eigvals in
  if is_diagonal a && (0 <=? lo)%Z && (lo <=? hi)%Z && (hi <? Z.of_nat N)%Z then
    let diag := map (fun ir => (fst ir, nth (fst ir) (snd ir) fzero)) (enumerate (rows a)) in
    let chosen := firstn (Z.to_nat (hi - lo + 1)) (skipn (Z.to_nat lo) (ascending diag)) in
    let cols := NdArray (length chosen) N (map (fun p => unit_column N (fst p)) chosen) in
    Ok (map snd chosen, np_transpose cols)
  else Raise ValueError.

Definition stand_in : LinAlg F := {|
  np_cov := cov_columns;
  eigh := eigh_diagonal
|}.

End StandIn.

(** ** The specification's own words

    Definitions that follow the specification rather than the code, to be
    compared with the code's. *)

Section SpecWords.
Context {F : Type} {SF : Scalar F}.

(** The value at row [i], column [j] of a nested list. *)
Definition cell (a : list (list F)) (i j : nat) : F := nth j (nth i a []) fzero.

(** Row-major reshape of a vector into [H] rows of [W] values. *)
Definition reshape2 (H W : nat) (l : list F) : list (list F) :=
  map (fun i => firstn W (skipn (i * W) l)) (seq 0 H).

(** The canvas after the image has been copied into its corner. *)
Definition padded_image (H W : nat) (image : ndarray F) : list (list F) :=
  let h := Nat.min (nrows image) H in
  let w := Nat.min (ncols image) W in
  assign_slice2 h w (blank_canvas (H, W)) (slice2 h w (rows image)).

(** One scalar mean over the whole batch. *)
Definition scalar_mean (fv : ndarray F) : F :=
  fdiv (fold_left fadd (concat (rows fv)) fzero) (fofnat (nrows fv * ncols fv)).

Definition centre (fv : ndarray F) : ndarray F :=
  NdArray (nrows fv) (ncols fv) (map (map (fun x => fsub x (scalar_mean fv))) (rows fv)).

(** Project: centre the batch, multiply by the basis. *)
Definition pca_project (v fv : ndarray F) : result (ndarray F) :=
  np_dot (centre fv) v.

(** Reconstruct: projection times basis-transpose plus the same mean. *)
Definition pca_reconstruct (v fv : ndarray F) : result (ndarray F) :=
  rbind (pca_project v fv) (fun p =>
  rbind (np_dot p (np_transpose v)) (fun r =>
  Ok (NdArray (nrows r) (ncols r) (map (map (fun x => fadd x (scalar_mean fv))) (rows r))))).

(** Reconstruct-or-return, for target dimension [d]. *)
Definition pca_pass (v : ndarray F) (d noise_dim : Z) (fv : ndarray F) : result (ndarray F) :=
  if (d =? noise_dim)%Z then pca_reconstruct v fv else pca_project v fv.

Definition l2_norm (r : list F) : F := fsqrt (fold_left fadd (zip_with fmul r r) fzero).

Definition cosine_similarity (t r : list F) : F :=
  fdiv (inner t r) (fmul (l2_norm t) (l2_norm r)).

(** The N-by-M matrix of similarities, a row per test vector. *)
Definition cosine_matrix (train test : ndarray F) : list (list F) :=
  map (fun t => map (fun r => cosine_similarity t r) (rows train)) (rows test).

(** The order numpy maximises in: a value that is not a number is greatest;
    between numbers it is [<=]. *)
Definition np_le (x y : F) : bool := fisnan y || (negb (fisnan x) && fle x y).

(** [k] is the position of the maximum of [l], the lowest one on ties. *)
Definition first_max (l : list F) (k : nat) : Prop :=
  k < length l /\
  (forall j, j < length l -> np_le (nth j l fzero) (nth k l fzero) = true) /\
  (forall j, j < k -> np_le (nth k l fzero) (nth j l fzero) = false).

Definition no_nan (l : list F) : Prop := Forall (fun x => fisnan x = false) l.

(** A list whose values never decrease, and one whose values never
    increase, from one position to a later one. *)
Definition never_decreases (l : list F) : Prop :=
  forall a b, a < b -> b < length l -> fle (nth a l fzero) (nth b l fzero) = true.

Definition never_increases (l : list F) : Prop :=
  forall a b, a < b -> b < length l -> fle (nth b l fzero) (nth a l fzero) = true.

End SpecWords.

(** Fit-or-reuse: the basis a call of [doPCA] multiplies by. *)
Definition basis_in_use {F : Type} {SF : Scalar F} {LA : LinAlg F}
    (fv : ndarray F) (d : Z) (w : world F) : result (ndarray F) :=
  let stored := np_array (eigenvector (model w)) in
  if np_size stored =? 0 then
    match np_cov fv false with
    | Cov0 _ => Raise IndexError
    | Cov2 covx =>
        let N := Z.of_nat (nrows covx) in
        rbind (eigh covx (N - d, N - 1)%Z) (fun wv => Ok (np_fliplr (snd wv)))
    end
  else Ok stored.

(** The comparison is a total preorder on the values that are numbers, and
    holds of no value that is not one. *)
Class ScalarOrder (F : Type) {SF : Scalar F} : Prop := {
  fle_trans : forall a b c : F, fle a b = true -> fle b c = true -> fle a c = true;
  fle_total : forall a b : F, fisnan a = false -> fisnan b = false ->
                              fle a b = true \/ fle b a = true;
  fle_number : forall a b : F, fle a b = true -> fisnan a = false /\ fisnan b = false
}.

Arguments ScalarOrder F {SF}.

(** ** Sample data *)

Definition f64 (n m : nat) (l : list (list float)) : ndarray float := NdArray n m l.

(** Three images: smaller than a 2-by-2 box, of its size, and larger. *)
Definition img_1x2 : ndarray float := f64 1 2 [[1; 2]]%float.
Definition img_2x2 : ndarray float := f64 2 2 [[10; 20]; [30; 40]]%float.
Definition img_3x3 : ndarray float := f64 3 3 [[1; 2; 3]; [4; 5; 6]; [7; 8; 9]]%float.

(** Four vectors of two features; their covariance is diagonal. *)
Definition X4 : ndarray float :=
  f64 4 2 [[3; 0]; [1; 0]; [2; 0.5]; [2; -0.5]]%float.

(** A model before any fit, with noise dimension 2 and final dimension 1,
    and the same model once a basis is stored. *)
Definition untrained : Model float := mkModel [] (1, 2) [] 2%Z 1%Z None.
Definition trained : Model float := set_eigenvector [[1]; [0]]%float untrained.

(** A model before any fit whose final dimension is 2, and a batch of three
    vectors of a single feature. *)
Definition untrained_2 : Model float := mkModel [] (1, 2) [] 3%Z 2%Z None.
Definition one_column : ndarray float := f64 3 1 [[1]; [2]; [3]]%float.

(** What training on [X4] returns, and what inference on the same [X4]
    returns afterwards. *)
Definition X4_at_training : ndarray float := f64 4 1 [[2]; [0]; [1]; [1]]%float.
Definition X4_at_inference : ndarray float := f64 4 1 [[1.5]; [-0.5]; [0.5]; [0.5]]%float.

(** Two orthogonal training vectors and two test vectors. *)
Definition train_AB : ndarray float := f64 2 2 [[1; 0]; [0; 1]]%float.
Definition test_BA : ndarray float := f64 2 2 [[0; 2]; [3; 0]]%float.

(** A training set with two parallel vectors, and one whose second vector
    is three times the first. *)
Definition train_scaled : ndarray float := f64 2 2 [[2; 0]; [1; 0]]%float.
Definition test_unit : ndarray float := f64 1 2 [[1; 0]]%float.
Definition test_second : ndarray float := f64 1 2 [[0; 1]]%float.
Definition train_diag : ndarray float := f64 2 2 [[1; 1]; [3; 3]]%float.
Definition test_diag : ndarray float := f64 1 2 [[1; 1]]%float.

Definition nonzero_norms (a : ndarray float) : Prop :=
  Forall (fun r => is_zero (l2_norm r) = false) (rows a).

(** The key under which binary64 values compare: the sign class, then the
    exponent and the mantissa. *)
Definition key (x : spec_float) : Z * Z * Z :=
  match x with
  | S754_zero _ => (0, 0, 0)
  | S754_infinity s => (if s then -2 else 2, 0, 0)
  | S754_nan => (0, 0, 0)
  | S754_finite s m e => if s then (-1, - e, - Z.pos m) else (1, e, Z.pos m)
  end%Z.

Definition lex_le (a b : Z * Z * Z) : Prop :=
  let '(a1, a2, a3) := a in
  let '(b1, b2, b3) := b in
  (a1 < b1 \/ (a1 = b1 /\ (a2 < b2 \/ (a2 = b2 /\ a3 <= b3))))%Z.

(** ** Further sample data *)

(** A corpus of a hundred images of one row of fifty pixels: for each pixel
    position a spike there and its opposite.  Its covariance is diagonal. *)
Definition spike (i : nat) (a : float) : ndarray float :=
  NdArray 1 50 [map (fun j => if j =? i then a else 0%float) (seq 0 50)].

Definition corpus : list (ndarray float) :=
  flat_map (fun i => let a := fofnat (S i) in [spike i a; spike i (PrimFloat.opp a)])
           (seq 0 50).

Definition corpus_labels : list label :=
  flat_map (fun _ => ["a"; "b"]%string) (seq 0 50).

(** A model ready for inference on images boxed in one row of two pixels:
    one basis vector, and four training vectors with their labels. *)
Definition ready : Model float :=
  mkModel ["a"; "b"; "c"; "d"]%string (1, 2) [[1]; [0]]%float 2%Z 1%Z
          (Some [[2]; [0]; [1]; [1]]%float).

(** ** The k-nearest-neighbour attempt

    Three functions the program defines and never calls:
    [classify_page_attempt], [k_nearest_neighbour] and
    [do_euclidean_distance]. *)

(** Python's [sorted(d.items(), key=operator.itemgetter(1))] on pairs of a
    row index and a distance: a library routine, known by its contract
    ([PySortLaws] below). *)
Class PySort (F : Type) : Type := {
  sorted_by_value : list (nat * F) -> list (nat * F)
}.

Section Attempt.
Context {F : Type} {SF : Scalar F}.

(** [x - y] on arrays of one axis, with numpy's broadcasting: equal
    lengths subtract elementwise, a length of one is stretched over the
    other array, any other pair of lengths raises. *)
Definition np_subtract1 (x y : list F) : result (list F) :=
  if length x =? length y then Ok (zip_with fsub x y)
  else match x, y with
       | [a], _ => Ok (map (fun b => fsub a b) y)
       | _, [b] => Ok (map (fun a => fsub a b) x)
       | _, _ => Raise ValueError
       end.

(** [np.sqrt(np.sum((x - y) ** 2))]; the square is a product. *)
Definition do_euclidean_distance (x y : list F) : result F :=
  rbind (np_subtract1 x y) (fun d =>
  Ok (fsqrt (np_sum (map (fun t => fmul t t) d)))).

(** Python's [a < b] on two floats, from [<=]: false as soon as one of
    them is not a number. *)
Definition py_lt (a b : F) : bool := fle a b && negb (fle b a).

(** The stable ascending sort on the second component: what every stable
    sort returns when [<] orders the keys. *)
Fixpoint stable_insert (p : nat * F) (l : list (nat * F)) : list (nat * F) :=
  match l with
  | [] => [p]
  | q :: t => if py_lt (snd q) (snd p) then q :: stable_insert p t else p :: l
  end.

Definition stable_sorted (l : list (nat * F)) : list (nat * F) :=
  fold_right stable_insert [] l.

(** [classVotes[response] += 1] on a [defaultdict(int)]: a key that is
    there keeps its place, a new key goes last with the count 1. *)
Fixpoint vote (response : label) (classVotes : list (label * nat)) : list (label * nat) :=
  match classVotes with
  | [] => [(response, 1)]
  | (l, c) :: t => if String.eqb l response then (l, S c) :: t
                   else (l, c) :: vote response t
  end.

(** The loop over the neighbours: [labels_train[neighbours[j]]] raises
    [IndexError] past the end of the labels. *)
Fixpoint count_votes (labels_train : list label) (neighbours : list nat)
    (classVotes : list (label * nat)) : result (list (label * nat)) :=
  match neighbours with
  | [] => Ok classVotes
  | n :: rest =>
      match nth_error labels_train n with
      | Some response => count_votes labels_train rest (vote response classVotes)
      | None => Raise IndexError
      end
  end.

(** [sorted(classVotes.items(), key=operator.itemgetter(1), reverse=True)]:
    the counts are integers, which [<] orders, so the result is that of
    the stable descending sort. *)
Fixpoint insert_vote (p : label * nat) (l : list (label * nat)) : list (label * nat) :=
  match l with
  | [] => [p]
  | q :: t => if snd p <? snd q then q :: insert_vote p t else p :: l
  end.

Definition sorted_votes (classVotes : list (label * nat)) : list (label * nat) :=
  fold_right insert_vote [] classVotes.

Context {PS : PySort F}.

Definition k_nearest_neighbour (fvectors_train : ndarray F) (labels_train : list label)
    (testInstance : list F) (k : Z) : result (label * list nat) :=
  rbind (rmap (fun xt => rbind (do_euclidean_distance testInstance (snd xt))
                               (fun dist => Ok (fst xt, dist)))
              (enumerate (rows fvectors_train))) (fun distances =>
  let sorted_d := sorted_by_value distances in
  rbind (rmap (fun i => match nth_error sorted_d i with
                        | Some p => Ok (fst p)
                        | None => Raise IndexError
                        end) (seq 0 (Z.to_nat k))) (fun neighbours =>
  rbind (count_votes labels_train neighbours []) (fun classVotes =>
  let sortedVotes := sorted_votes classVotes in
  match sortedVotes with
  | [] => Raise IndexError
  | p :: _ => Ok (fst p, neighbours)
  end))).

End Attempt.

(** What [classify_page_attempt] can raise: the exceptions above, and
    [AttributeError]. *)
Inductive attempt_exn : Type :=
| Builtin (e : exn)
| AttributeError.

Inductive outcome (A : Type) : Type :=
| Returns (a : A)
| Raises (e : attempt_exn).

Arguments Returns {A} a.
Arguments Raises {A} e.

(** The dictionary [classify_page_attempt] is handed, and the standard
    output: the trained model's keys, a key ['counter'] that may be
    missing, and the counters printed so far. *)
Record attempt_world (F : Type) : Type := AttemptWorld {
  stored : Model F;
  counter : option Z;
  printed : list Z
}.

Arguments AttemptWorld {F} stored counter printed.
Arguments stored {F} a.
Arguments counter {F} a.
Arguments printed {F} a.

Section AttemptPage.
Context {F : Type} {SF : Scalar F} {PS : PySort F}.

(** [labels.append(result)] on a numpy array: arrays have no such
    method. *)
Definition ndarray_append (labels : list nat) (result : label) : outcome unit :=
  Raises AttributeError.

(** The loop over the rows of the page. *)
Fixpoint label_rows (fvectors_train : ndarray F) (labels_train : list label) (k : Z)
    (fvectors_test : list (list F)) (labels : list nat) : outcome (list nat) :=
  match fvectors_test with
  | [] => Returns labels
  | testInstance :: rest =>
      match k_nearest_neighbour fvectors_train labels_train testInstance k with
      | Raise e => Raises (Builtin e)
      | Ok (result, neighbours) =>
          match ndarray_append labels result with
          | Raises e => Raises e
          | Returns _ => label_rows fvectors_train labels_train k rest labels
          end
      end
  end.

Definition classify_page_attempt (page : ndarray F) (w : attempt_world F)
    : outcome (list nat) * attempt_world F :=
  match counter w with
  | None => (Raises (Builtin KeyError), w)
  | Some c =>
      let w1 := AttemptWorld (stored w) (Some (c + 1)%Z) (printed w ++ [c]) in
      match fvectors_train (stored w) with
      | None => (Raises (Builtin KeyError), w1)
      | Some fv =>
          let fvectors_train := np_array fv in
          let labels_train := labels_train (stored w) in
          let fvectors_test := page in
          let labels := [nrows fvectors_test; ncols fvectors_test] in
          let k := 3%Z in
          (label_rows fvectors_train labels_train k (rows fvectors_test) labels, w1)
      end
  end.

End AttemptPage.

(** The contract of [sorted]: the result is a rearrangement of the items,
    and when every key is a number it is the stable ascending sort. *)
Class PySortLaws (F : Type) {SF : Scalar F} {PS : PySort F} : Prop := {
  sorted_permutes : forall l : list (nat * F), Permutation (sorted_by_value l) l;
  sorted_stable : forall l : list (nat * F),
      Forall (fun p => fisnan (snd p) = false) l -> sorted_by_value l = stable_sorted l
}.

Arguments PySortLaws F {SF PS}.

(** A sorting routine to run the attempt with: the stable sort itself. *)
Definition insertion_sort {F : Type} {SF : Scalar F} : PySort F :=
  {| sorted_by_value := stable_sorted |}.

(** Three training vectors of two features, with their labels. *)
Definition train_3 : ndarray float := f64 3 2 [[0; 0]; [3; 4]; [0; 1]]%float.
Definition labels_3 : list label := ["a"; "b"; "b"]%string.

Section AttemptWords.
Context {F : Type} {SF : Scalar F}.

(** Row [i] comes before row [j] among the distances [ds]: it is nearer,
    or as near and of lower index. *)
Definition nearer (ds : list F) (i j : nat) : Prop :=
  fle (nth i ds fzero) (nth j ds fzero) = true /\
  (fle (nth j ds fzero) (nth i ds fzero) = true -> i < j).

(** The same on (index, distance) pairs. *)
Definition before (p q : nat * F) : Prop :=
  fle (snd p) (snd q) = true /\ (fle (snd q) (snd p) = true -> fst p < fst q).

End AttemptWords.

(** The votes after a list of responses, and the count a label has. *)
Definition tally (responses : list label) (classVotes : list (label * nat))
    : list (label * nat) :=
  fold_left (fun v r => vote r v) responses classVotes.

Fixpoint votes_for (l : label) (classVotes : list (label * nat)) : nat :=
  match classVotes with
  | [] => 0
  | (l', c) :: t => if String.eqb l' l then c else votes_for l t
  end.

(** [winner] is the most frequent of the responses, and the one met first
    among the most frequent. *)
Definition most_voted (responses : list label) (winner : label) : Prop :=
  (forall l, count_occ string_dec responses l <= count_occ string_dec responses winner) /\
  exists pre post,
    responses = pre ++ winner :: post /\
    ~ In winner pre /\
    forall l, In l pre ->
      count_occ string_dec responses l < count_occ string_dec responses winner.

(** * Properties *)

(** ** Outcomes *)

Lemma Ok_inj (A : Type) (a b : A) : Ok a = Ok b -> a = b.
Proof. intros H. now inversion H. Qed.

(** ** Bounding box *)

Lemma fold_left_max_list_max (l : list nat) (x : nat) :
  fold_left Nat.max l x = Nat.max x (list_max l).
Proof.
  revert x; induction l as [|y l IH]; intros x; simpl.
  - now rewrite Nat.max_0_r.
  - rewrite IH. now rewrite Nat.max_assoc.
Qed.

Lemma py_max_list_max (l : list nat) :
  l <> [] -> py_max l = Ok (list_max l).
Proof.
  destruct l as [|x l]; [congruence|]. intros _. simpl.
  now rewrite fold_left_max_list_max.
Qed.

Lemma list_max_In (l : list nat) : l <> [] -> In (list_max l) l.
Proof.
  induction l as [|x l IH]; [congruence|]. intros _. simpl.
  destruct l as [|y l].
  - left. simpl. now rewrite Nat.max_0_r.
  - destruct (Nat.max_spec x (list_max (y :: l))) as [[_ ->]|[_ ->]].
    + right. apply IH. discriminate.
    + now left.
Qed.

Lemma list_max_upper (l : list nat) (x : nat) : In x l -> x <= list_max l.
Proof.
  intros H. pose proof (proj1 (list_max_le l (list_max l)) (le_n _)) as HF.
  rewrite Forall_forall in HF. now apply HF.
Qed.

(** C7. On a non-empty list of images [get_bounding_box_size] returns the
    pair (greatest height, greatest width): each is the height (width) of
    some image, and no image is taller or wider.  The function is pure: its
    value is all it produces. *)
Theorem get_bounding_box_size_is_max :
  forall (F : Type) (SF : Scalar F) (images : list (ndarray F)),
    images <> [] ->
    let height := list_max (map (@nrows F) images) in
    let width := list_max (map (@ncols F) images) in
    get_bounding_box_size images = Ok (height, width) /\
    In height (map (@nrows F) images) /\
    In width (map (@ncols F) images) /\
    (forall image, In image images -> nrows image <= height /\ ncols image <= width).
Proof.
  intros F SF images Hne height width.
  assert (Hh : map (@nrows F) images <> []) by (destruct images; simpl; congruence).
  assert (Hw : map (@ncols F) images <> []) by (destruct images; simpl; congruence).
  unfold get_bounding_box_size.
  rewrite (py_max_list_max Hh), (py_max_list_max Hw). simpl.
  repeat split.
  - now apply list_max_In.
  - now apply list_max_In.
  - apply list_max_upper. now apply in_map.
  - apply list_max_upper. now apply in_map.
Qed.

Lemma get_bounding_box_size_is_max_witness :
  get_bounding_box_size [img_1x2; img_3x3] = Ok (3, 3).
Proof.
  assert (Hne : [img_1x2; img_3x3] <> []) by discriminate.
  exact (proj1 (get_bounding_box_size_is_max float64 Hne)).
Defined.

(** C9. On the empty list [get_bounding_box_size] raises; so does the
    vectorizer when it has to compute the box itself, and training on an
    empty corpus stops there, before any feature vector is built and
    whatever the linear algebra routines are. *)
Theorem get_bounding_box_size_empty :
  forall (F : Type) (SF : Scalar F),
    get_bounding_box_size (@nil (ndarray F)) = Raise ValueError /\
    images_to_feature_vectors (@nil (ndarray F)) None = Raise ValueError /\
    (forall (LA : LinAlg F) (labels : list label),
        process_training_data [] labels = Raise ValueError).
Proof.
  intros F SF. repeat split.
Qed.

(** ** Error correction *)

(** C10. [correct_errors] returns the labels it was given, and the page and
    the model it was handed are afterwards what they were before. *)
Theorem correct_errors_identity :
  forall (F : Type) (page : ndarray F) (labels : list label) (bboxes : list (list Z))
         (model : Model F),
    fst (correct_errors labels bboxes (Handed page model)) = labels /\
    the_page (snd (correct_errors labels bboxes (Handed page model))) = page /\
    the_model (snd (correct_errors labels bboxes (Handed page model))) = model.
Proof.
  intros. unfold correct_errors. simpl. auto.
Qed.

(** ** Feature vectors *)

Section FeatureLemmas.
Context {F : Type} {SF : Scalar F}.

Lemma set_nth_middle (A : Type) (pre rest : list A) (x y : A) :
  set_nth (length pre) x (pre ++ y :: rest) = pre ++ x :: rest.
Proof.
  induction pre as [|p pre IH]; simpl; [reflexivity|]. now rewrite IH.
Qed.

(** The loop over [enumerate images] writes row [i] from image [i]: at its
    end the rows are the images' rows, in order. *)
Lemma fill_rows_map (g : ndarray F -> list F) (n m : nat) (images : list (ndarray F)) :
  forall (k : nat) (pre rest : list (list F)),
    length pre = k -> length rest = length images ->
    fold_left (fun fvectors ii => set_row (fst ii) (g (snd ii)) fvectors)
              (combine (seq k (length images)) images) (NdArray n m (pre ++ rest))
    = NdArray n m (pre ++ map g images).
Proof.
  induction images as [|im ims IH]; intros k pre rest Hk Hr.
  - destruct rest; [reflexivity | discriminate].
  - destruct rest as [|r rest]; [discriminate|]. simpl in Hr.
    simpl. unfold set_row at 2. simpl. rewrite <- Hk, set_nth_middle.
    replace (pre ++ g im :: rest) with ((pre ++ [g im]) ++ rest)
      by (now rewrite <- app_assoc).
    rewrite (IH (S (length pre)) (pre ++ [g im]) rest).
    + now rewrite <- app_assoc.
    + rewrite length_app. simpl. lia.
    + lia.
Qed.

Lemma images_to_feature_vectors_rows (images : list (ndarray F)) (b : nat * nat) :
  images_to_feature_vectors images (Some b)
  = Ok (NdArray (length images) (fst b * snd b) (map (padded_row b) images)).
Proof.
  unfold images_to_feature_vectors, enumerate, np_empty. simpl. f_equal.
  apply (fill_rows_map (padded_row b) (length images) (fst b * snd b) images
                       (k := 0) [] (repeat (repeat fzero (fst b * snd b)) (length images))).
  - reflexivity.
  - apply repeat_length.
Qed.

Lemma assign_slice2_length (h w : nat) (dst src : list (list F)) :
  length (assign_slice2 h w dst src) = length dst.
Proof.
  revert dst src; induction h as [|h IH]; intros [|d dst] [|s src]; simpl; auto.
Qed.

Lemma assign_slice2_nth (h w : nat) :
  forall (dst src : list (list F)) (i : nat),
    h <= length dst -> h <= length src ->
    nth i (assign_slice2 h w dst src) []
    = if i <? h then nth i src [] ++ skipn w (nth i dst []) else nth i dst [].
Proof.
  induction h as [|h IH]; intros dst src i Hd Hs.
  - now destruct dst, src.
  - destruct dst as [|d dst]; [simpl in Hd; lia|].
    destruct src as [|s src]; [simpl in Hs; lia|].
    simpl in Hd, Hs. simpl assign_slice2. destruct i as [|i]; [reflexivity|].
    simpl nth. rewrite IH by lia. reflexivity.
Qed.

Lemma slice2_nth (h w i : nat) (a : list (list F)) :
  i < h -> nth i (slice2 h w a) [] = firstn w (nth i a []).
Proof.
  intros Hi. unfold slice2.
  rewrite <- (firstn_nil F w) at 1.
  rewrite map_nth. f_equal.
  revert i a Hi; induction h as [|h IH]; intros i a Hi; [lia|].
  destruct a as [|r a]; [now destruct i|]. destruct i as [|i]; [reflexivity|].
  simpl. apply IH. lia.
Qed.

Lemma slice2_length (h w : nat) (a : list (list F)) :
  h <= length a -> length (slice2 h w a) = h.
Proof.
  intros Hh. unfold slice2. rewrite length_map, length_firstn. lia.
Qed.

Lemma blank_canvas_nth (H W i : nat) :
  nth i (blank_canvas (H, W)) [] = if i <? H then repeat (fofnat 255) W else [].
Proof.
  unfold blank_canvas. simpl.
  destruct (Nat.ltb_spec i H) as [Hi|Hi].
  - rewrite nth_repeat_lt; auto.
  - apply nth_overflow. rewrite repeat_length. lia.
Qed.

Lemma skipn_repeat_sub (A : Type) (c : A) (w W : nat) :
  skipn w (repeat c W) = repeat c (W - w).
Proof.
  revert W; induction w as [|w IH]; intros W; simpl.
  - now rewrite Nat.sub_0_r.
  - destruct W as [|W]; simpl; [reflexivity | apply IH].
Qed.

Lemma padded_row_concat (H W : nat) (image : ndarray F) :
  padded_row (H, W) image = concat (padded_image H W image).
Proof. reflexivity. Qed.

Lemma padded_image_length (H W : nat) (image : ndarray F) :
  length (padded_image H W image) = H.
Proof.
  unfold padded_image. rewrite assign_slice2_length.
  unfold blank_canvas. apply repeat_length.
Qed.

Lemma nth_row_length (image : ndarray F) (i : nat) :
  wf image -> i < nrows image -> length (nth i (rows image) []) = ncols image.
Proof.
  intros [Hl Hr] Hi. rewrite Forall_forall in Hr. apply Hr, nth_In. lia.
Qed.

Lemma padded_image_nth (H W : nat) (image : ndarray F) (i : nat) :
  wf image -> i < H ->
  nth i (padded_image H W image) []
  = if i <? Nat.min (nrows image) H
    then firstn (Nat.min (ncols image) W) (nth i (rows image) [])
         ++ repeat (fofnat 255) (W - Nat.min (ncols image) W)
    else repeat (fofnat 255) W.
Proof.
  intros Hwf Hi. unfold padded_image.
  rewrite assign_slice2_nth.
  - rewrite blank_canvas_nth. apply Nat.ltb_lt in Hi as Hi'. rewrite Hi'.
    destruct (Nat.ltb_spec i (Nat.min (nrows image) H)) as [Hlt|Hge]; [|reflexivity].
    rewrite slice2_nth by assumption. f_equal.
    rewrite skipn_repeat_sub. reflexivity.
  - unfold blank_canvas. simpl. rewrite repeat_length. lia.
  - rewrite slice2_length; [lia|]. destruct Hwf as [Hl _]. lia.
Qed.

Lemma padded_image_row_length (H W : nat) (image : ndarray F) :
  wf image -> Forall (fun r => length r = W) (padded_image H W image).
Proof.
  intros Hwf. apply Forall_forall. intros r Hr.
  destruct (In_nth _ _ [] Hr) as [i [Hi <-]].
  rewrite padded_image_length in Hi.
  rewrite padded_image_nth by assumption.
  destruct (Nat.ltb_spec i (Nat.min (nrows image) H)) as [Hlt|Hge].
  - rewrite length_app, length_firstn, repeat_length.
    rewrite nth_row_length by (assumption || lia). lia.
  - apply repeat_length.
Qed.

Lemma padded_image_cell (H W : nat) (image : ndarray F) (i j : nat) :
  wf image -> i < H -> j < W ->
  cell (padded_image H W image) i j
  = if (i <? Nat.min (nrows image) H) && (j <? Nat.min (ncols image) W)
    then cell (rows image) i j else fofnat 255.
Proof.
  intros Hwf Hi Hj. unfold cell. rewrite padded_image_nth by assumption.
  destruct (Nat.ltb_spec i (Nat.min (nrows image) H)) as [Hlt|Hge]; simpl.
  - destruct (Nat.ltb_spec j (Nat.min (ncols image) W)) as [Hjl|Hjg].
    + rewrite app_nth1.
      * rewrite nth_firstn. apply Nat.ltb_lt in Hjl. now rewrite Hjl.
      * rewrite length_firstn, nth_row_length by (assumption || lia). lia.
    + rewrite app_nth2.
      * apply nth_repeat_lt.
        rewrite length_firstn, nth_row_length by (assumption || lia). lia.
      * rewrite length_firstn, nth_row_length by (assumption || lia). lia.
  - now apply nth_repeat_lt.
Qed.

Lemma reshape2_concat (W : nat) (l : list (list F)) :
  Forall (fun r => length r = W) l -> reshape2 (length l) W (concat l) = l.
Proof.
  induction l as [|r l IH]; intros Hall; [reflexivity|].
  inversion Hall as [|? ? Hr Hl]; subst.
  unfold reshape2. simpl length. simpl seq. simpl map. f_equal.
  - simpl. rewrite firstn_app, Nat.sub_diag, firstn_all. simpl. apply app_nil_r.
  - rewrite <- seq_shift, map_map. rewrite <- (IH Hl) at 2. unfold reshape2.
    apply map_ext. intros i. f_equal. simpl concat.
    replace (S i * length r) with (i * length r + length r) by lia.
    rewrite <- skipn_skipn.
    rewrite (skipn_app (length r)), Nat.sub_diag, skipn_all. reflexivity.
Qed.

Lemma nth_concat_uniform (W : nat) (l : list (list F)) (i j : nat) :
  Forall (fun r => length r = W) l -> j < W ->
  nth (i * W + j) (concat l) fzero = cell l i j.
Proof.
  unfold cell. revert i; induction l as [|r l IH]; intros i Hall Hj.
  - simpl concat. rewrite (nth_overflow (@nil (list F))) by (simpl; lia).
    now rewrite !nth_overflow by (simpl; lia).
  - inversion Hall as [|? ? Hr Hl]; subst. simpl concat.
    destruct i as [|i].
    + simpl. now rewrite app_nth1.
    + rewrite app_nth2 by (simpl; lia).
      replace (S i * length r + j - length r) with (i * length r + j) by (simpl; lia).
      simpl nth. now apply IH.
Qed.

Lemma slice2_cover (H W : nat) (image : ndarray F) :
  wf image -> H <= nrows image -> W <= ncols image ->
  padded_image H W image = slice2 H W (rows image).
Proof.
  intros Hwf HH HW. apply nth_ext with (d := []) (d' := []).
  - rewrite padded_image_length, slice2_length; [reflexivity|]. destruct Hwf; lia.
  - rewrite padded_image_length. intros i Hi.
    rewrite padded_image_nth, slice2_nth by assumption.
    rewrite !Nat.min_r by assumption.
    apply Nat.ltb_lt in Hi. rewrite Hi, Nat.sub_diag. simpl. apply app_nil_r.
Qed.

Lemma slice2_all (image : ndarray F) :
  wf image -> slice2 (nrows image) (ncols image) (rows image) = rows image.
Proof.
  intros [Hl Hr]. unfold slice2. rewrite <- Hl, firstn_all.
  rewrite <- (map_id (rows image)) at 2. apply map_ext_in.
  intros r Hin. rewrite Forall_forall in Hr. rewrite <- (Hr r Hin). apply firstn_all.
Qed.

End FeatureLemmas.

(** With no box given, the box is the bounding box of the images. *)
Lemma images_to_feature_vectors_default_box
    (F : Type) (SF : Scalar F) (images : list (ndarray F)) :
  images <> [] ->
  images_to_feature_vectors images None
  = images_to_feature_vectors images
      (Some (list_max (map (@nrows F) images), list_max (map (@ncols F) images))).
Proof.
  intros Hne. unfold images_to_feature_vectors at 1.
  assert (Hh : map (@nrows F) images <> []) by (destruct images; simpl; congruence).
  assert (Hw : map (@ncols F) images <> []) by (destruct images; simpl; congruence).
  unfold get_bounding_box_size.
  rewrite (py_max_list_max Hh), (py_max_list_max Hw). reflexivity.
Qed.

(** C6. For a list of images and a box (H, W), [images_to_feature_vectors]
    returns, with no error, one row per image in input order, each of
    length H * W.  Read row-major, the cell (i, j) of a row holds the
    image's pixel (i, j) when i and j are below min(image height, H) and
    min(image width, W), and 255 otherwise.  Hence an image of exactly the
    box size comes back unchanged when its row is reshaped, an image
    smaller than the box leaves 255 on every cell it does not cover, and an
    image larger than the box is cropped to its top-left H-by-W region. *)
Theorem images_to_feature_vectors_spec :
  forall (F : Type) (SF : Scalar F) (images : list (ndarray F)) (H W : nat),
    Forall wf images ->
    exists fvectors,
      images_to_feature_vectors images (Some (H, W)) = Ok fvectors /\
      wf fvectors /\ nrows fvectors = length images /\ ncols fvectors = H * W /\
      forall k image, nth_error images k = Some image ->
        let row := nth k (rows fvectors) [] in
        length row = H * W /\
        (forall i j, i < H -> j < W ->
           nth (i * W + j) row fzero
           = if (i <? Nat.min (nrows image) H) && (j <? Nat.min (ncols image) W)
             then cell (rows image) i j else fofnat 255) /\
        (nrows image = H -> ncols image = W -> reshape2 H W row = rows image) /\
        (forall i j, i < H -> j < W -> nrows image <= i \/ ncols image <= j ->
           nth (i * W + j) row fzero = fofnat 255) /\
        (H <= nrows image -> W <= ncols image ->
           reshape2 H W row = slice2 H W (rows image)).
Proof.
  intros F SF images H W Hwf.
  rewrite images_to_feature_vectors_rows.
  eexists. split; [reflexivity|]. simpl.
  assert (Hlen : forall image, wf image ->
                 length (concat (padded_image H W image)) = H * W).
  { intros image Hi. pose proof (padded_image_row_length H W Hi) as Hr.
    rewrite <- (padded_image_length H W image) at 2.
    clear - Hr. induction Hr as [|r l Hr _ IH]; simpl; [reflexivity|].
    rewrite length_app, IH, Hr. reflexivity. }
  split; [|split; [reflexivity|split; [reflexivity|]]].
  - split; simpl; [apply length_map|].
    apply Forall_forall. intros r Hr. apply in_map_iff in Hr as [image [<- Hin]].
    rewrite padded_row_concat. apply Hlen.
    rewrite Forall_forall in Hwf. now apply Hwf.
  - intros k image Hk.
    assert (Hi : wf image).
    { rewrite Forall_forall in Hwf. eapply Hwf, nth_error_In, Hk. }
    assert (Hrow : nth k (map (padded_row (H, W)) images) []
                   = concat (padded_image H W image)).
    { rewrite (nth_indep _ [] (padded_row (H, W) image)).
      - rewrite map_nth. erewrite nth_error_nth by exact Hk. reflexivity.
      - rewrite length_map. apply nth_error_Some. congruence. }
    cbv zeta. rewrite Hrow.
    pose proof (padded_image_row_length H W Hi) as Hr.
    assert (Hcell : forall i j, i < H -> j < W ->
              nth (i * W + j) (concat (padded_image H W image)) fzero
              = if (i <? Nat.min (nrows image) H) && (j <? Nat.min (ncols image) W)
                then cell (rows image) i j else fofnat 255).
    { intros i j Hi' Hj. rewrite nth_concat_uniform by assumption.
      now apply padded_image_cell. }
    assert (Hre : reshape2 H W (concat (padded_image H W image))
                  = padded_image H W image).
    { rewrite <- (padded_image_length H W image) at 1. now apply reshape2_concat. }
    repeat split.
    + now apply Hlen.
    + exact Hcell.
    + intros HH HW. rewrite Hre, slice2_cover by (assumption || lia).
      rewrite <- HH, <- HW. now apply slice2_all.
    + intros i j Hi' Hj Hout. rewrite Hcell by assumption.
      destruct Hout as [Hout|Hout].
      * destruct (Nat.ltb_spec i (Nat.min (nrows image) H)); [lia|reflexivity].
      * destruct (Nat.ltb_spec j (Nat.min (ncols image) W)); [lia|].
        now rewrite andb_false_r.
    + intros HH HW. rewrite Hre. now apply slice2_cover.
Qed.

Lemma images_to_feature_vectors_spec_witness :
  Forall wf [img_1x2; img_2x2; img_3x3] /\
  images_to_feature_vectors [img_1x2; img_2x2; img_3x3] (Some (2, 2))
  = Ok (f64 3 4 [[1; 2; 255; 255]; [10; 20; 30; 40]; [1; 2; 4; 5]]%float).
Proof.
  assert (Hwf : Forall wf [img_1x2; img_2x2; img_3x3]).
  { repeat constructor. }
  split; [exact Hwf|].
  destruct (images_to_feature_vectors_spec float64 2 2 Hwf)
    as [fvectors [Heq _]].
  rewrite Heq. revert Heq. vm_compute. intros Heq. now inversion Heq.
Defined.

(** ** PCA: fit or reuse, project, reconstruct or return *)

Section PCALemmas.
Context {F : Type} {SF : Scalar F} {LA : LinAlg F}.

Lemma np_mean_scalar (fv : ndarray F) : np_mean fv = scalar_mean fv.
Proof. reflexivity. Qed.

Lemma np_dot_shape (a b r : ndarray F) :
  np_dot a b = Ok r -> nrows r = nrows a /\ ncols r = ncols b.
Proof.
  unfold np_dot. destruct (ncols a =? nrows b); [|discriminate].
  intros Heq. inversion Heq. now simpl.
Qed.

Lemma np_dot_ok (a b : ndarray F) :
  ncols a = nrows b -> exists r, np_dot a b = Ok r.
Proof.
  intros Heq. unfold np_dot. apply Nat.eqb_eq in Heq. rewrite Heq. eauto.
Qed.

Lemma pca_project_shape (v fv p : ndarray F) :
  pca_project v fv = Ok p -> nrows p = nrows fv /\ ncols p = ncols v.
Proof. intros Hp. now apply np_dot_shape in Hp. Qed.

Lemma pca_project_ok (v fv : ndarray F) :
  ncols fv = nrows v -> exists p, pca_project v fv = Ok p.
Proof. intros Heq. now apply np_dot_ok. Qed.

Lemma pca_reconstruct_ok (v fv : ndarray F) :
  ncols fv = nrows v ->
  exists r, pca_reconstruct v fv = Ok r /\ nrows r = nrows fv /\ ncols r = ncols fv.
Proof.
  intros Heq. unfold pca_reconstruct.
  destruct (pca_project_ok v fv Heq) as [p Hp]. rewrite Hp. simpl.
  destruct (pca_project_shape _ _ Hp) as [Hr Hc].
  destruct (np_dot_ok p (np_transpose v)) as [r Hd]; [exact Hc|].
  rewrite Hd. simpl. eexists. split; [reflexivity|].
  destruct (np_dot_shape _ _ Hd) as [Hr' Hc']. simpl in *. split; congruence.
Qed.

Lemma pca_pass_ok (v fv : ndarray F) (d nd : Z) :
  ncols fv = nrows v -> is_ok (pca_pass v d nd fv) = true.
Proof.
  intros Heq. unfold pca_pass. destruct (d =? nd)%Z.
  - destruct (pca_reconstruct_ok v fv Heq) as [r [-> _]]. reflexivity.
  - destruct (pca_project_ok v fv Heq) as [p ->]. reflexivity.
Qed.

(** With a stored basis the call only reads the state. *)
Lemma doPCA_reuse (w : world F) (fv : ndarray F) (d : Z) :
  np_size (np_array (eigenvector (model w))) <> 0 ->
  doPCA fv d w
  = (pca_pass (np_array (eigenvector (model w))) d (noise_dim (model w)) fv, w).
Proof.
  intros Hne. apply Nat.eqb_neq in Hne.
  unfold doPCA, bind, get_model. rewrite Hne.
  unfold ret, lift, pca_pass, pca_reconstruct, pca_project.
  change (sub_scalar fv (np_mean fv)) with (centre fv).
  destruct (np_dot (centre fv) (np_array (eigenvector (model w)))) as [p|e];
    destruct (d =? noise_dim (model w))%Z; simpl; try reflexivity.
  destruct (np_dot p (np_transpose (np_array (eigenvector (model w))))) as [r|e];
    reflexivity.
Qed.

(** With no stored basis the call fits one.  The covariance is computed;
    when it has no axis the call raises there; otherwise the
    eigendecomposition is asked for, and when it returns the basis is
    written to the model if [d] is the final dimension. *)
Lemma doPCA_fit (w : world F) (fv : ndarray F) (d : Z) :
  np_size (np_array (eigenvector (model w))) = 0 ->
  doPCA fv d w
  = match np_cov fv false with
    | Cov0 _ => (Raise IndexError, World (model w) (calls w ++ [CallCov fv false]))
    | Cov2 covx =>
        let N := Z.of_nat (nrows covx) in
        let log' := calls w ++ [CallCov fv false; CallEigh covx (N - d, N - 1)%Z] in
        match eigh covx (N - d, N - 1)%Z with
        | Ok wv =>
            let v := np_fliplr (snd wv) in
            (pca_pass v d (noise_dim (model w)) fv,
             World (if (d =? dim (model w))%Z
                    then set_eigenvector (tolist v) (model w) else model w) log')
        | Raise e => (Raise e, World (model w) log')
        end
    end.
Proof.
  intros He. apply Nat.eqb_eq in He.
  unfold doPCA, bind, get_model. rewrite He.
  unfold call_cov, bind, log, ret, lift, shape0. simpl.
  destruct (np_cov fv false) as [c|covx]; [reflexivity|].
  unfold call_eigh, bind, log, ret, lift, put_model, get_model. simpl.
  set (N := Z.of_nat (nrows covx)).
  rewrite <- app_assoc. simpl app.
  destruct (eigh covx (N - d, N - 1)%Z) as [wv|e]; [|reflexivity].
  unfold pca_pass, pca_reconstruct, pca_project.
  change (sub_scalar fv (np_mean fv)) with (centre fv).
  destruct (d =? dim (model w))%Z; simpl;
    destruct (np_dot (centre fv) (np_fliplr (snd wv))) as [p|e];
    destruct (d =? noise_dim (model w))%Z; simpl; try reflexivity;
    destruct (np_dot p (np_transpose (np_fliplr (snd wv)))) as [r|e]; reflexivity.
Qed.

Lemma reduce_dimensions_reuse (w : world F) (fv : ndarray F) :
  np_size (np_array (eigenvector (model w))) <> 0 ->
  let v := np_array (eigenvector (model w)) in
  reduce_dimensions fv w
  = (rbind (pca_reconstruct v fv)
           (fun r => pca_pass v (dim (model w)) (noise_dim (model w)) r), w).
Proof.
  intros Hne v. unfold reduce_dimensions, bind, get_model.
  rewrite (doPCA_reuse w fv (noise_dim (model w)) Hne).
  unfold pca_pass at 1. rewrite Z.eqb_refl. fold v.
  destruct (pca_reconstruct v fv) as [r|e]; [|reflexivity].
  rewrite (doPCA_reuse w r (dim (model w)) Hne). fold v. simpl.
  destruct (pca_pass v (dim (model w)) (noise_dim (model w)) r); reflexivity.
Qed.

Lemma load_test_page_reuse (w : world F) (images : list (ndarray F)) :
  np_size (np_array (eigenvector (model w))) <> 0 ->
  snd (load_test_page images w) = w.
Proof.
  intros Hne. unfold load_test_page, bind, get_model, lift.
  rewrite images_to_feature_vectors_rows.
  rewrite (reduce_dimensions_reuse w _ Hne).
  match goal with |- context [rbind ?a ?b] => destruct (rbind a b) end; reflexivity.
Qed.

End PCALemmas.

(** C1. When the stored basis is not empty, [doPCA] leaves the state as it
    found it: the model, its ['eigenvector'] field included, is the same
    after the call, and the log of library calls has not grown, so neither
    a covariance nor an eigendecomposition was computed.  What the call
    returns is the projection (or reconstruction) on the stored basis.  The
    same holds of [reduce_dimensions] and [load_test_page].  Reusing the
    basis raises nothing: the calls succeed as soon as the batch is as wide
    as the basis is tall. *)
Theorem frozen_basis_is_reused :
  forall (F : Type) (SF : Scalar F) (LA : LinAlg F)
         (w : world F) (fv : ndarray F) (d : Z) (images : list (ndarray F)),
    np_size (np_array (eigenvector (model w))) <> 0 ->
    let v := np_array (eigenvector (model w)) in
    doPCA fv d w = (pca_pass v d (noise_dim (model w)) fv, w) /\
    snd (reduce_dimensions fv w) = w /\
    snd (load_test_page images w) = w /\
    (ncols fv = nrows v ->
     is_ok (fst (doPCA fv d w)) = true /\ is_ok (fst (reduce_dimensions fv w)) = true).
Proof.
  intros F SF LA w fv d images Hne v.
  split; [now apply doPCA_reuse|].
  split; [now rewrite reduce_dimensions_reuse|].
  split; [now apply load_test_page_reuse|].
  intros Hshape. split.
  - rewrite doPCA_reuse by assumption. simpl. now apply pca_pass_ok.
  - rewrite reduce_dimensions_reuse by assumption. simpl. fold v.
    destruct (pca_reconstruct_ok v fv Hshape) as [r [-> [_ Hc]]]. simpl.
    apply pca_pass_ok. congruence.
Qed.

Lemma frozen_basis_is_reused_witness :
  np_size (np_array (eigenvector trained)) <> 0 /\
  snd (@doPCA _ _ stand_in X4 2%Z (World trained [])) = World trained [] /\
  snd (@reduce_dimensions _ _ stand_in X4 (World trained [])) = World trained [].
Proof.
  assert (Hne : np_size (np_array (eigenvector (model (World trained [])))) <> 0)
    by (vm_compute; discriminate).
  split; [exact Hne|].
  destruct (@frozen_basis_is_reused float float64 stand_in
              (World trained []) X4 2%Z [] Hne) as [H1 [H2 _]].
  split; [now rewrite H1 | exact H2].
Defined.

(** Reversing the rows of a matrix reverses the order of its columns. *)
Lemma column_of_reversed_rows {F : Type} {SF : Scalar F} (a : ndarray F) (j : nat) :
  wf a -> j < ncols a ->
  column j (NdArray (nrows a) (ncols a) (map (@rev F) (rows a)))
  = column (ncols a - 1 - j) a.
Proof.
  intros [_ Hall] Hj. unfold column. simpl. rewrite map_map.
  apply map_ext_in. intros r Hr.
  rewrite Forall_forall in Hall. specialize (Hall r Hr).
  rewrite rev_nth by lia. f_equal. lia.
Qed.

Lemma reversed_never_increases {F : Type} {SF : Scalar F} (l : list F) :
  never_decreases l -> never_increases (rev l).
Proof.
  intros Hasc a b Hab Hb. rewrite length_rev in Hb.
  rewrite !rev_nth by lia. apply Hasc; lia.
Qed.

(** C4, as stated, fails on a batch of a single feature.  The basis is
    empty and [d] is the final dimension, yet no eigenvector is taken and
    nothing is written: [np.cov] returns an array of no axis, and
    [covx.shape[0]] raises [IndexError] before [eigh] is called. *)
Lemma empty_basis_counterexample :
  np_size (np_array (eigenvector untrained)) = 0 /\
  dim untrained = 1%Z /\
  @doPCA _ _ stand_in one_column 1%Z (World untrained [])
  = (Raise IndexError, World untrained [CallCov one_column false]).
Proof. repeat split. Qed.

(** C4, amended.  When the stored basis is empty, [doPCA] computes the
    covariance of the batch with rows as observations ([rowvar] false).
    When [np.cov] returns an array of no axis, the call raises
    [IndexError] there and the model is left alone.  When it returns a
    matrix of N rows, the call asks for the eigenvectors of the positions
    N - d to N - 1 of the ascending spectrum, that is the top [d]; these
    two calls are the only ones made.  When [eigh] raises, so does the
    call, and the model is left alone.  When it returns, the basis is its
    matrix with every row reversed: column j of the basis is column
    K - 1 - j of the K returned, the one [eigh] paired with the j-th
    eigenvalue from the top, so that, the eigenvalues being returned in
    ascending order, those of the basis columns never increase.  The
    rows of the basis become the model's ['eigenvector'] when [d] is the
    final dimension, no other entry changing; the model is left alone when
    it is not. *)
Theorem empty_basis_is_fitted :
  forall (F : Type) (SF : Scalar F) (LA : LinAlg F)
         (w : world F) (fv : ndarray F) (d : Z),
    np_size (np_array (eigenvector (model w))) = 0 ->
    match np_cov fv false with
    | Cov0 _ =>
        doPCA fv d w
        = (Raise IndexError, World (model w) (calls w ++ [CallCov fv false]))
    | Cov2 covx =>
        let N := Z.of_nat (nrows covx) in
        calls (snd (doPCA fv d w))
        = calls w ++ [CallCov fv false; CallEigh covx (N - d, N - 1)%Z] /\
        match eigh covx (N - d, N - 1)%Z with
        | Ok (vals, vecs) =>
            exists v,
              nrows v = nrows vecs /\ ncols v = ncols vecs /\
              rows v = map (@rev F) (rows vecs) /\
              (wf vecs -> forall j, j < ncols vecs ->
                 column j v = column (ncols vecs - 1 - j) vecs) /\
              (length vals = ncols vecs -> forall j, j < ncols vecs ->
                 nth j (rev vals) fzero = nth (ncols vecs - 1 - j) vals fzero) /\
              (never_decreases vals -> never_increases (rev vals)) /\
              fst (doPCA fv d w) = pca_pass v d (noise_dim (model w)) fv /\
              (d = dim (model w) ->
                 eigenvector (model (snd (doPCA fv d w))) = rows v /\
                 same_but_basis (model w) (model (snd (doPCA fv d w)))) /\
              (d <> dim (model w) -> model (snd (doPCA fv d w)) = model w)
        | Raise e =>
            fst (doPCA fv d w) = Raise e /\ model (snd (doPCA fv d w)) = model w
        end
    end.
Proof.
  intros F SF LA w fv d He.
  rewrite (doPCA_fit w fv d He).
  destruct (np_cov fv false) as [c|covx]; [reflexivity|].
  cbv zeta. set (N := Z.of_nat (nrows covx)).
  destruct (eigh covx (N - d, N - 1)%Z) as [[vals vecs]|e]; simpl.
  - split; [reflexivity|].
    exists (np_fliplr vecs).
    split; [reflexivity|]. split; [reflexivity|]. split; [reflexivity|].
    split; [intros Hwf j Hj; now apply column_of_reversed_rows|].
    split; [intros Hlen j Hj; rewrite rev_nth by lia; f_equal; lia|].
    split; [apply reversed_never_increases|].
    split; [reflexivity|]. split.
    + intros ->. rewrite Z.eqb_refl. simpl. split; [reflexivity | repeat split].
    + intros Hd. apply Z.eqb_neq in Hd. now rewrite Hd.
  - auto.
Qed.

(** On [X4], for the final dimension 2 of [untrained_2]: the two
    eigenvectors come back with the smaller eigenvalue first, and the basis
    written has them in the other order.  For the noise dimension of
    [untrained] nothing is written. *)
Lemma empty_basis_is_fitted_witness :
  np_size (np_array (eigenvector untrained_2)) = 0 /\
  np_cov (LinAlg := stand_in) X4 false
  = Cov2 (f64 2 2 [[0x1.5555555555555p-1; 0]; [0; 0x1.5555555555555p-3]]%float) /\
  eigh (LinAlg := stand_in)
       (f64 2 2 [[0x1.5555555555555p-1; 0]; [0; 0x1.5555555555555p-3]]%float) (0, 1)%Z
  = Ok ([0x1.5555555555555p-3; 0x1.5555555555555p-1]%float,
        f64 2 2 [[0; 1]; [1; 0]]%float) /\
  eigenvector (model (snd (@doPCA _ _ stand_in X4 2%Z (World untrained_2 []))))
  = [[1; 0]; [0; 1]]%float /\
  model (snd (@doPCA _ _ stand_in X4 2%Z (World untrained []))) = untrained.
Proof.
  assert (He : np_size (np_array (eigenvector (model (World untrained_2 [])))) = 0)
    by reflexivity.
  assert (He' : np_size (np_array (eigenvector (model (World untrained [])))) = 0)
    by reflexivity.
  split; [exact He|]. split; [vm_compute; reflexivity|].
  split; [vm_compute; reflexivity|].
  pose proof (@empty_basis_is_fitted float float64 stand_in
                (World untrained_2 []) X4 2%Z He) as H1.
  pose proof (@empty_basis_is_fitted float float64 stand_in
                (World untrained []) X4 2%Z He') as H2.
  split.
  - vm_compute in H1. destruct H1 as [_ [v [_ [_ [Hrows [_ [_ [_ [_ [Hw _]]]]]]]]]].
    destruct (Hw eq_refl) as [Hv _]. vm_compute. exact (eq_trans Hv Hrows).
  - vm_compute in H2. destruct H2 as [_ [v [_ [_ [_ [_ [_ [_ [_ [_ Hn]]]]]]]]]].
    vm_compute. apply Hn. discriminate.
Defined.

Lemma doPCA_result {F : Type} {SF : Scalar F} {LA : LinAlg F}
    (w : world F) (fv : ndarray F) (d : Z) :
  fst (doPCA fv d w)
  = rbind (basis_in_use fv d w) (fun v => pca_pass v d (noise_dim (model w)) fv).
Proof.
  unfold basis_in_use.
  destruct (Nat.eqb_spec (np_size (np_array (eigenvector (model w)))) 0) as [He|Hne].
  - rewrite (doPCA_fit w fv d He).
    destruct (np_cov fv false) as [c|covx]; [reflexivity|].
    cbv zeta. destruct (eigh _ _) as [wv|e]; reflexivity.
  - now rewrite (doPCA_reuse w fv d Hne).
Qed.

Lemma cell_map_map {F : Type} {SF : Scalar F} (f : F -> F) (a : list (list F)) (i j : nat) :
  i < length a -> j < length (nth i a []) ->
  cell (map (map f) a) i j = f (cell a i j).
Proof.
  intros Hi Hj. unfold cell.
  rewrite (nth_indep (map (map f) a) [] (map f [])) by (now rewrite length_map).
  rewrite map_nth.
  rewrite (nth_indep (map f (nth i a [])) fzero (f fzero)) by (now rewrite length_map).
  now rewrite map_nth.
Qed.

(** On [X4] the covariance is diagonal with the larger variance on the
    first feature; the routine returns the spectrum ascending, and the
    basis fitted for two dimensions has the leading direction first. *)
Example fitted_basis_is_descending :
  np_cov (LinAlg := stand_in) X4 false
  = Cov2 (f64 2 2 [[0x1.5555555555555p-1; 0]; [0; 0x1.5555555555555p-3]]%float) /\
  eigh (LinAlg := stand_in)
       (f64 2 2 [[0x1.5555555555555p-1; 0]; [0; 0x1.5555555555555p-3]]%float) (0, 1)%Z
  = Ok ([0x1.5555555555555p-3; 0x1.5555555555555p-1]%float,
        f64 2 2 [[0; 1]; [1; 0]]%float) /\
  basis_in_use (LA := stand_in) X4 2%Z (World untrained [])
  = Ok (f64 2 2 [[1; 0]; [0; 1]]%float).
Proof. repeat split. Qed.

(** *** The models that training builds

    [doPCA] writes no field of the model but ['eigenvector'], and returns as
    many rows as it is given.  So a model returned by
    [process_training_data] has noise dimension 50 and final dimension 10,
    and as many training vectors as there were images, at least one. *)

Section TrainedModels.
Context {F : Type} {SF : Scalar F} {LA : LinAlg F}.

Lemma same_but_basis_refl (m : Model F) : same_but_basis m m.
Proof. repeat split. Qed.

Lemma same_but_basis_trans (m1 m2 m3 : Model F) :
  same_but_basis m1 m2 -> same_but_basis m2 m3 -> same_but_basis m1 m3.
Proof.
  unfold same_but_basis. intros [? [? [? [? ?]]]] [? [? [? [? ?]]]].
  repeat split; congruence.
Qed.

Lemma np_dot_rows_length (a b r : ndarray F) :
  np_dot a b = Ok r -> length (rows r) = length (rows a).
Proof.
  unfold np_dot. destruct (ncols a =? nrows b); [|discriminate].
  intros Heq. apply Ok_inj in Heq. subst r. simpl. apply length_map.
Qed.

Lemma pca_pass_rows_length (v fv r : ndarray F) (d nd : Z) :
  pca_pass v d nd fv = Ok r -> length (rows r) = length (rows fv).
Proof.
  unfold pca_pass, pca_reconstruct, pca_project.
  destruct (np_dot (centre fv) v) as [p|e] eqn:Hp.
  - apply np_dot_rows_length in Hp. unfold centre in Hp. simpl in Hp.
    rewrite length_map in Hp.
    destruct (d =? nd)%Z; simpl.
    + destruct (np_dot p (np_transpose v)) as [q|e] eqn:Hq; [|discriminate].
      apply np_dot_rows_length in Hq. simpl. intros Heq.
      apply Ok_inj in Heq. subst r. simpl. rewrite length_map. congruence.
    + intros Heq. congruence.
  - destruct (d =? nd)%Z; discriminate.
Qed.

Lemma doPCA_frame (w : world F) (fv : ndarray F) (d : Z) :
  same_but_basis (model w) (model (snd (doPCA fv d w))) /\
  forall r, fst (doPCA fv d w) = Ok r -> length (rows r) = length (rows fv).
Proof.
  split.
  - destruct (Nat.eqb_spec (np_size (np_array (eigenvector (model w)))) 0) as [He|Hne].
    + rewrite (doPCA_fit w fv d He).
      destruct (np_cov fv false) as [c|covx]; [apply same_but_basis_refl|].
      cbv zeta.
      destruct (eigh _ _) as [wv|e]; simpl; [|apply same_but_basis_refl].
      destruct (d =? dim (model w))%Z; repeat split.
    + rewrite (doPCA_reuse w fv d Hne). apply same_but_basis_refl.
  - intros r. rewrite doPCA_result.
    destruct (basis_in_use fv d w) as [v|e]; simpl; [|discriminate].
    apply pca_pass_rows_length.
Qed.

Lemma reduce_dimensions_frame (w : world F) (fv : ndarray F) :
  same_but_basis (model w) (model (snd (reduce_dimensions fv w))) /\
  forall r, fst (reduce_dimensions fv w) = Ok r -> length (rows r) = length (rows fv).
Proof.
  unfold reduce_dimensions, bind, get_model.
  destruct (doPCA_frame w fv (noise_dim (model w))) as [Hm1 Hr1].
  destruct (doPCA fv (noise_dim (model w)) w) as [[r1|e1] w1]; simpl in *;
    [|split; [exact Hm1 | discriminate]].
  destruct (doPCA_frame w1 r1 (dim (model w))) as [Hm2 Hr2].
  destruct (doPCA r1 (dim (model w)) w1) as [[r2|e2] w2]; simpl in *.
  - split; [now apply same_but_basis_trans with (model w1)|].
    intros r Heq. inversion Heq; subst. rewrite (Hr2 r eq_refl). now apply Hr1.
  - split; [now apply same_but_basis_trans with (model w1) | discriminate].
Qed.

Lemma trained_model_shape (images : list (ndarray F)) (labels : list label) (m : Model F) :
  process_training_data images labels = Ok m ->
  noise_dim m = 50%Z /\ dim m = 10%Z /\ noise_dim m <> dim m /\
  labels_train m = labels /\
  exists fv, fvectors_train m = Some fv /\ length fv = length images /\
             0 < length images.
Proof.
  unfold process_training_data.
  destruct (get_bounding_box_size images) as [b|e] eqn:Hb; [|discriminate].
  assert (Hne : 0 < length images).
  { destruct images; [discriminate | simpl; lia]. }
  cbv beta iota delta [rbind]. rewrite images_to_feature_vectors_rows.
  match goal with |- context [reduce_dimensions ?fv ?w] =>
    destruct (reduce_dimensions_frame w fv) as [Hm Hr];
    destruct (reduce_dimensions fv w) as [[r|e] w'] end; [|discriminate].
  simpl in Hm, Hr. intros Heq. inversion Heq; subst m. clear Heq.
  destruct Hm as [Hl [_ [Hn [Hd _]]]]. simpl in *.
  split; [exact Hn|]. split; [exact Hd|].
  split; [rewrite Hn, Hd; discriminate|]. split; [exact Hl|].
  eexists. split; [reflexivity|]. split; [|exact Hne].
  unfold tolist. rewrite (Hr r eq_refl). apply length_map.
Qed.

End TrainedModels.

(** C3. The projection step of [doPCA] centres the batch on one scalar, the
    mean of all its cells, the same for every column, and multiplies by the
    basis in use.  When [d] is the noise-reduction dimension the call
    returns the reconstruction, projection times basis-transpose plus that
    same mean, which has the shape of the batch; when [d] is the final
    dimension, the two dimensions being distinct, it returns the
    projection itself, a column per basis vector. *)
Theorem doPCA_projects_on_scalar_mean :
  forall (F : Type) (SF : Scalar F) (LA : LinAlg F)
         (w : world F) (fv : ndarray F) (d : Z) (v : ndarray F),
    basis_in_use fv d w = Ok v ->
    (d = noise_dim (model w) ->
     fst (doPCA fv d w) = pca_reconstruct v fv /\
     forall r, pca_reconstruct v fv = Ok r ->
               nrows r = nrows fv /\ ncols r = ncols fv) /\
    (d = dim (model w) -> noise_dim (model w) <> dim (model w) ->
     fst (doPCA fv d w) = pca_project v fv /\
     forall p, pca_project v fv = Ok p ->
               nrows p = nrows fv /\ ncols p = ncols v) /\
    pca_project v fv = np_dot (centre fv) v /\
    (forall i j, i < length (rows fv) -> j < length (nth i (rows fv) []) ->
       cell (rows (centre fv)) i j = fsub (cell (rows fv) i j) (scalar_mean fv)).
Proof.
  intros F SF LA w fv d v Hv.
  pose proof (doPCA_result w fv d) as Hres. rewrite Hv in Hres. simpl in Hres.
  split; [|split; [|split]].
  - intros Hd. split.
    + rewrite Hres. unfold pca_pass. subst d. now rewrite Z.eqb_refl.
    + intros r Hr.
      destruct (Nat.eqb_spec (ncols fv) (nrows v)) as [Heq|Hneq].
      * destruct (pca_reconstruct_ok v fv Heq) as [r' [Hr' Hs]]. congruence.
      * unfold pca_reconstruct, pca_project, np_dot in Hr. simpl in Hr.
        apply Nat.eqb_neq in Hneq. rewrite Hneq in Hr. discriminate.
  - intros Hd Hdist. split.
    + rewrite Hres. unfold pca_pass.
      assert (Hne : (d =? noise_dim (model w))%Z = false)
        by (apply Z.eqb_neq; congruence).
      now rewrite Hne.
    + intros p. apply pca_project_shape.
  - reflexivity.
  - intros i j Hi Hj.
    exact (cell_map_map (fun x => fsub x (scalar_mean fv)) (rows fv) Hi Hj).
Qed.

Lemma doPCA_projects_on_scalar_mean_witness :
  basis_in_use (LA := stand_in) X4 1%Z (World trained []) = Ok (f64 2 1 [[1]; [0]]%float) /\
  fst (@doPCA _ _ stand_in X4 1%Z (World trained []))
  = Ok (f64 4 1 [[2]; [0]; [1]; [1]]%float) /\
  fst (@doPCA _ _ stand_in X4 2%Z (World trained []))
  = Ok (f64 4 2 [[3; 1]; [1; 1]; [2; 1]; [2; 1]]%float).
Proof.
  assert (Hv1 : basis_in_use (LA := stand_in) X4 1%Z (World trained [])
                = Ok (f64 2 1 [[1]; [0]]%float)) by reflexivity.
  assert (Hv2 : basis_in_use (LA := stand_in) X4 2%Z (World trained [])
                = Ok (f64 2 1 [[1]; [0]]%float)) by reflexivity.
  split; [exact Hv1|].
  destruct (doPCA_projects_on_scalar_mean float64 stand_in _ _ _ Hv1)
    as [_ [Hfinal _]].
  destruct (doPCA_projects_on_scalar_mean float64 stand_in _ _ _ Hv2)
    as [Hnoise _].
  split.
  - destruct Hfinal as [-> _]; [reflexivity | discriminate | now vm_compute].
  - destruct Hnoise as [-> _]; [reflexivity | now vm_compute].
Defined.

Lemma float_neq (x y : float) : PrimFloat.Leibniz.eqb x y = false -> x <> y.
Proof.
  intros Hb Heq. apply FloatAxioms.Leibniz.eqb_spec in Heq. congruence.
Qed.

(** C5. With a stored basis, both passes of [reduce_dimensions] multiply by
    that one basis: the reconstruction of the first pass is built from the
    stored final-dimension basis, and nothing is fitted.  With an empty
    basis, as at training, the first pass multiplies by a basis fitted on
    the spot for the noise dimension, which is not stored.  So the two are
    different transformations: trained on [X4] and then applied to the
    same [X4], the reduction returns different vectors. *)
Theorem inference_reuses_final_basis :
  (forall (F : Type) (SF : Scalar F) (LA : LinAlg F) (w : world F) (fv : ndarray F),
      np_size (np_array (eigenvector (model w))) <> 0 ->
      let v := np_array (eigenvector (model w)) in
      fst (doPCA fv (noise_dim (model w)) w) = pca_reconstruct v fv /\
      reduce_dimensions fv w
      = (rbind (pca_reconstruct v fv)
               (fun r => pca_pass v (dim (model w)) (noise_dim (model w)) r), w)) /\
  (forall (F : Type) (SF : Scalar F) (LA : LinAlg F) (w : world F) (fv : ndarray F)
          (covx : ndarray F) (vals : list F) (vecs : ndarray F),
      np_size (np_array (eigenvector (model w))) = 0 ->
      noise_dim (model w) <> dim (model w) ->
      np_cov fv false = Cov2 covx ->
      let N := Z.of_nat (nrows covx) in
      eigh covx (N - noise_dim (model w), N - 1)%Z = Ok (vals, vecs) ->
      fst (doPCA fv (noise_dim (model w)) w) = pca_reconstruct (np_fliplr vecs) fv /\
      model (snd (doPCA fv (noise_dim (model w)) w)) = model w) /\
  (exists log,
      @reduce_dimensions _ _ stand_in X4 (World untrained [])
      = (Ok X4_at_training, World trained log) /\
      @reduce_dimensions _ _ stand_in X4 (World trained log)
      = (Ok X4_at_inference, World trained log) /\
      X4_at_training <> X4_at_inference).
Proof.
  split; [|split].
  - intros F SF LA w fv Hne v. split.
    + rewrite doPCA_reuse by assumption. simpl. unfold pca_pass.
      now rewrite Z.eqb_refl.
    + now apply reduce_dimensions_reuse.
  - intros F SF LA w fv covx vals vecs He Hd Hcov N Heigh.
    rewrite (doPCA_fit w fv (noise_dim (model w)) He), Hcov.
    cbv zeta. fold N. rewrite Heigh. simpl.
    apply Z.eqb_neq in Hd. rewrite Hd. unfold pca_pass. rewrite Z.eqb_refl. auto.
  - eexists. split; [vm_compute; reflexivity|]. split; [vm_compute; reflexivity|].
    intros Heq. assert (H2 : 2%float = 1.5%float) by (now inversion Heq).
    revert H2. now apply float_neq.
Qed.

Lemma inference_reuses_final_basis_witness :
  np_size (np_array (eigenvector trained)) <> 0 /\
  @reduce_dimensions _ _ stand_in X4 (World trained [])
  = (Ok X4_at_inference, World trained []).
Proof.
  assert (Hne : np_size (np_array (eigenvector (model (World trained [])))) <> 0)
    by (vm_compute; discriminate).
  split; [exact Hne|].
  destruct (proj1 inference_reuses_final_basis float float64 stand_in
              (World trained []) X4 Hne) as [_ ->].
  now vm_compute.
Defined.

(** ** Nearest neighbour *)

Section ArgmaxLemmas.
Context {F : Type} {SF : Scalar F} {SO : ScalarOrder F}.

Lemma fle_refl (x : F) : fisnan x = false -> fle x x = true.
Proof. intros Hx. now destruct (fle_total x x Hx Hx). Qed.

Lemma np_le_numbers (x y : F) :
  fisnan x = false -> fisnan y = false -> np_le x y = fle x y.
Proof. intros Hx Hy. unfold np_le. now rewrite Hx, Hy. Qed.

Lemma np_le_nan (x y : F) : fisnan y = true -> np_le x y = true.
Proof. intros Hy. unfold np_le. now rewrite Hy. Qed.

Lemma np_le_to_number (x y : F) :
  fisnan y = false -> np_le x y = true -> fisnan x = false /\ fle x y = true.
Proof.
  intros Hy. unfold np_le. rewrite Hy. simpl.
  destruct (fisnan x); simpl; [discriminate | auto].
Qed.

Lemma np_le_refl (x : F) : np_le x x = true.
Proof.
  destruct (fisnan x) eqn:Hx; [now apply np_le_nan|].
  rewrite np_le_numbers by assumption. now apply fle_refl.
Qed.

(** The scan keeps the invariant: [mp] is the value at [best], no value
    seen so far exceeds it, and every value before [best] is strictly
    below it. *)
Lemma argmax_from_first_max (l : list F) :
  forall (pre : list F) (mp : F) (best : nat),
    best < length pre ->
    nth best pre fzero = mp ->
    (forall j, j < length pre -> np_le (nth j pre fzero) mp = true) ->
    (forall j, j < best -> np_le mp (nth j pre fzero) = false) ->
    first_max (pre ++ l) (argmax_from mp best (length pre) l).
Proof.
  induction l as [|x t IH]; intros pre mp best Hb Hmp Hmax Hlow.
  - simpl. rewrite app_nil_r. repeat split; try assumption.
    + intros j Hj. rewrite Hmp. now apply Hmax.
    + intros j Hj. rewrite Hmp. now apply Hlow.
  - assert (Hlen : length (pre ++ [x]) = S (length pre))
      by (rewrite length_app; simpl; lia).
    simpl argmax_from. destruct (fisnan mp) eqn:Hnmp.
    + (* the scan stops on a value that is not a number *)
      repeat split.
      * rewrite length_app. lia.
      * intros j _. rewrite (app_nth1 pre (x :: t) fzero Hb), Hmp.
        now apply np_le_nan.
      * intros j Hj. rewrite (app_nth1 pre (x :: t) fzero Hb), Hmp.
        rewrite app_nth1 by lia. now apply Hlow.
    + replace (pre ++ x :: t) with ((pre ++ [x]) ++ t) by (now rewrite <- app_assoc).
      rewrite <- Hlen.
      destruct (fle x mp) eqn:Hx; simpl negb; cbv iota.
      * destruct (fle_number x mp Hx) as [Hnx _].
        apply IH.
        -- lia.
        -- now rewrite app_nth1.
        -- intros j Hj. rewrite Hlen in Hj.
           destruct (Nat.eq_dec j (length pre)) as [->|Hne].
           ++ rewrite nth_middle. now rewrite np_le_numbers.
           ++ rewrite app_nth1 by lia. apply Hmax. lia.
        -- intros j Hj. rewrite app_nth1 by lia. now apply Hlow.
      * apply (IH (pre ++ [x]) x (length pre)).
        -- lia.
        -- now rewrite nth_middle.
        -- intros j Hj. rewrite Hlen in Hj.
           destruct (Nat.eq_dec j (length pre)) as [->|Hne].
           ++ rewrite nth_middle. apply np_le_refl.
           ++ rewrite app_nth1 by lia.
              destruct (fisnan x) eqn:Hnx; [now apply np_le_nan|].
              destruct (np_le_to_number _ _ Hnmp (Hmax j ltac:(lia)))
                as [Hnj Hjm].
              rewrite np_le_numbers by assumption.
              apply fle_trans with mp; [exact Hjm|].
              destruct (fle_total mp x Hnmp Hnx) as [H|H]; [exact H | congruence].
        -- intros j Hj. rewrite app_nth1 by lia.
           destruct (np_le_to_number _ _ Hnmp (Hmax j Hj)) as [Hnj Hjm].
           unfold np_le. rewrite Hnj. simpl.
           destruct (fisnan x); simpl; [reflexivity|].
           destruct (fle x (nth j pre fzero)) eqn:Hxj; [|reflexivity].
           assert (fle x mp = true) by (apply fle_trans with (nth j pre fzero); auto).
           congruence.
Qed.

Lemma argmax_row_first_max (l : list F) :
  l <> [] -> exists k, argmax_row l = Ok k /\ first_max l k.
Proof.
  destruct l as [|x t]; [congruence|]. intros _.
  exists (argmax_from x 0 1 t). split; [reflexivity|].
  apply (argmax_from_first_max t [x] (mp := x) (best := 0)); simpl; auto.
  - intros j Hj. assert (j = 0) as -> by lia. apply np_le_refl.
  - intros j Hj. lia.
Qed.

(** On a row of numbers the maximum is the plain one. *)
Lemma first_max_numbers (l : list F) (k : nat) :
  no_nan l -> first_max l k ->
  (forall j, j < length l -> fle (nth j l fzero) (nth k l fzero) = true) /\
  (forall j, j < k -> fle (nth k l fzero) (nth j l fzero) = false).
Proof.
  intros Hnn [Hk [Hall Hlow]].
  assert (Hn : forall j, j < length l -> fisnan (nth j l fzero) = false).
  { intros j Hj. unfold no_nan in Hnn. rewrite Forall_forall in Hnn.
    now apply Hnn, nth_In. }
  split.
  - intros j Hj. rewrite <- np_le_numbers by (apply Hn; lia). now apply Hall.
  - intros j Hj. rewrite <- np_le_numbers by (apply Hn; lia). now apply Hlow.
Qed.

End ArgmaxLemmas.

Section NeighbourLemmas.
Context {F : Type} {SF : Scalar F}.

Lemma zip_with_map_map (A B C D : Type) (f : B -> C -> D) (g : A -> B) (h : A -> C)
    (l : list A) :
  zip_with f (map g l) (map h l) = map (fun x => f (g x) (h x)) l.
Proof. induction l as [|x l IH]; simpl; [reflexivity | now rewrite IH]. Qed.

Lemma map_nth_seq_id (A : Type) (d : A) (l : list A) :
  map (fun i => nth i l d) (seq 0 (length l)) = l.
Proof.
  apply nth_ext with (d := d) (d' := d).
  - now rewrite length_map, length_seq.
  - rewrite length_map, length_seq. intros i Hi.
    rewrite (nth_indep _ d (nth 0 l d)) by (now rewrite length_map, length_seq).
    rewrite (map_nth (fun i => nth i l d) (seq 0 (length l)) 0 i).
    now rewrite seq_nth.
Qed.

(** The columns of the transpose are the rows. *)
Lemma transpose_transpose_rows (a : ndarray F) :
  wf a -> rows (np_transpose (np_transpose a)) = rows a.
Proof.
  intros [Hl Hr]. unfold np_transpose at 1. simpl rows. unfold column.
  simpl rows. rewrite <- Hl.
  transitivity (map (fun i => nth i (rows a) []) (seq 0 (length (rows a))));
    [|apply map_nth_seq_id].
  apply map_ext_in. intros i Hi. apply in_seq in Hi.
  rewrite map_map.
  assert (Hrow : length (nth i (rows a) []) = ncols a).
  { rewrite Forall_forall in Hr. apply Hr, nth_In. lia. }
  rewrite <- Hrow.
  transitivity (map (fun j => nth j (nth i (rows a) []) fzero)
                    (seq 0 (length (nth i (rows a) []))));
    [|apply map_nth_seq_id].
  apply map_ext. intros j. unfold column.
  rewrite (nth_indep _ fzero (nth j [] fzero)) by (rewrite length_map; lia).
  now rewrite (map_nth (fun r => nth j r fzero) (rows a) [] i).
Qed.

(** The matrix the classifier maximises over is the matrix of cosine
    similarities. *)
Lemma dist_is_cosine_matrix (train test x : ndarray F) :
  wf train ->
  np_dot test (np_transpose train) = Ok x ->
  np_divide x (np_outer (row_norms test) (row_norms train))
  = NdArray (nrows test) (nrows train) (cosine_matrix train test).
Proof.
  intros Hwf Hx. unfold np_dot in Hx.
  destruct (ncols test =? nrows (np_transpose train)); [|discriminate].
  apply Ok_inj in Hx. subst x. rewrite (transpose_transpose_rows Hwf).
  unfold np_divide, np_outer, row_norms, cosine_matrix.
  cbn [rows nrows ncols np_transpose].
  f_equal. rewrite map_map. rewrite zip_with_map_map.
  apply map_ext. intros t. rewrite map_map, zip_with_map_map.
  reflexivity.
Qed.

Lemma rmap_ok (A B : Type) (f : A -> result B) (g : A -> B) (l : list A) :
  (forall x, In x l -> f x = Ok (g x)) -> rmap f l = Ok (map g l).
Proof.
  induction l as [|x l IH]; intros Hf; simpl; [reflexivity|].
  rewrite (Hf x) by (now left). simpl.
  rewrite IH by (intros y Hy; apply Hf; now right). reflexivity.
Qed.

Lemma take_ok (labels : list label) (idx : list nat) :
  Forall (fun k => k < length labels) idx ->
  take labels idx = Ok (map (fun k => nth k labels EmptyString) idx).
Proof.
  intros Hall. unfold take. apply rmap_ok. intros k Hk.
  rewrite Forall_forall in Hall. specialize (Hall k Hk).
  destruct (nth_error labels k) as [x|] eqn:Hn.
  - now rewrite (nth_error_nth _ _ _ Hn).
  - apply nth_error_None in Hn. lia.
Qed.

End NeighbourLemmas.

Section NeighbourSpec.
Context {F : Type} {SF : Scalar F} {SO : ScalarOrder F}.

Lemma cosine_matrix_row (train test : ndarray F) (i : nat) :
  i < length (rows test) ->
  nth i (cosine_matrix train test) []
  = map (fun r => cosine_similarity (nth i (rows test) []) r) (rows train).
Proof.
  intros Hi. unfold cosine_matrix.
  rewrite (nth_indep _ [] (map (fun r => cosine_similarity [] r) (rows train)))
    by (now rewrite length_map).
  now rewrite (map_nth (fun t => map (fun r => cosine_similarity t r) (rows train))).
Qed.

Lemma cosine_matrix_cell (train test : ndarray F) (i k : nat) :
  i < length (rows test) -> k < length (rows train) ->
  nth k (nth i (cosine_matrix train test) []) fzero
  = cosine_similarity (nth i (rows test) []) (nth k (rows train) []).
Proof.
  intros Hi Hk. rewrite cosine_matrix_row by assumption.
  rewrite (nth_indep _ fzero (cosine_similarity (nth i (rows test) []) []))
    by (now rewrite length_map).
  now rewrite (map_nth (fun r => cosine_similarity (nth i (rows test) []) r)).
Qed.

(** On well-shaped inputs with at least one training row the classifier
    succeeds and picks, for each test row, the first position of the
    maximum of its row of similarities. *)
Lemma nearest_neighbour_argmax (train : ndarray F) (labels : list label) (test : ndarray F) :
  wf train -> wf test -> ncols test = ncols train ->
  0 < nrows train -> length labels = nrows train ->
  exists nearest,
    nearest_neighbour train labels test
    = Ok (map (fun k => nth k labels EmptyString) nearest) /\
    length nearest = nrows test /\
    forall i, i < nrows test ->
      first_max (nth i (cosine_matrix train test) []) (nth i nearest 0).
Proof.
  intros Htr Hte Hcols Hpos Hlab.
  destruct (np_dot_ok test (np_transpose train) Hcols) as [x Hx].
  pose (g := fun row : list F => match argmax_row row with Ok k => k | Raise _ => 0 end).
  assert (Hrow : forall row, In row (cosine_matrix train test) ->
                 argmax_row row = Ok (g row) /\ first_max row (g row)).
  { intros row Hin.
    assert (Hne : row <> []).
    { unfold cosine_matrix in Hin. apply in_map_iff in Hin as [t [<- _]].
      destruct Htr as [Hl _]. destruct (rows train); simpl in *; [lia | discriminate]. }
    destruct (argmax_row_first_max Hne) as [k [Hk Hfm]].
    unfold g. rewrite Hk. auto. }
  exists (map g (cosine_matrix train test)).
  assert (Hlen : length (cosine_matrix train test) = nrows test).
  { unfold cosine_matrix. rewrite length_map. now destruct Hte. }
  split; [|split].
  - unfold nearest_neighbour. rewrite Hx. simpl rbind.
    rewrite (dist_is_cosine_matrix _ Htr Hx).
    unfold np_argmax_axis1. simpl ncols. simpl rows.
    replace (nrows train =? 0) with false by (symmetry; apply Nat.eqb_neq; lia).
    rewrite (rmap_ok argmax_row g) by (intros row Hin; now apply Hrow).
    simpl rbind. apply take_ok.
    apply Forall_forall. intros k Hk. apply in_map_iff in Hk as [row [<- Hin]].
    destruct (Hrow row Hin) as [_ [Hlt _]].
    unfold cosine_matrix in Hin. apply in_map_iff in Hin as [t [<- _]].
    rewrite length_map in Hlt. destruct Htr as [Hl _]. lia.
  - now rewrite length_map.
  - intros i Hi.
    rewrite (nth_indep _ 0 (g [])) by (rewrite length_map; lia).
    rewrite map_nth. apply Hrow. apply nth_In. lia.
Qed.

(** [classify_page] is the classifier run on the model's stored training
    vectors and labels. *)
Lemma classify_page_stored (page : ndarray F) (m : Model F) (fv : list (list F)) :
  fvectors_train m = Some fv ->
  classify_page page m = nearest_neighbour (np_array fv) (labels_train m) page.
Proof. intros Hfv. unfold classify_page. now rewrite Hfv. Qed.

(** With no training row there is nothing to maximise over: [np.argmax]
    raises. *)
Lemma nearest_neighbour_no_training_row
    (train : ndarray F) (labels : list label) (test : ndarray F) :
  wf train -> ncols test = ncols train -> nrows train = 0 ->
  nearest_neighbour train labels test = Raise ValueError.
Proof.
  intros Htr Hcols Hzero.
  destruct (np_dot_ok test (np_transpose train) Hcols) as [x Hx].
  unfold nearest_neighbour. rewrite Hx. simpl rbind.
  rewrite (dist_is_cosine_matrix _ Htr Hx).
  unfold np_argmax_axis1. simpl ncols. now rewrite Hzero.
Qed.

End NeighbourSpec.

(** ** The order of binary64

    [<=] on floats is a total preorder away from NaN: the comparison of the
    specification floats is the lexicographic order of a key made of the
    sign class, the exponent and the mantissa. *)

Lemma SFleb_key (x y : spec_float) :
  x <> S754_nan -> y <> S754_nan ->
  (SFleb x y = true <-> lex_le (key x) (key y)).
Proof.
  intros Hx Hy. unfold SFleb, SFcompare.
  destruct x as [sx|sx| |sx mx ex], y as [sy|sy| |sy my ey]; try congruence;
    try destruct sx; try destruct sy; simpl;
    try (split; [intros _; lia | reflexivity]);
    try (split; [discriminate | lia]).
  all: destruct (Z.compare_spec ex ey);
    try (split; [intros _; lia | reflexivity]);
    try (split; [discriminate | lia]).
  all: fold (Pos.compare mx my); destruct (Pos.compare_spec mx my); simpl;
    try (split; [intros _; lia | reflexivity]);
    try (split; [discriminate | lia]).
Qed.

Lemma is_nan_false (x : float) : PrimFloat.is_nan x = false -> Prim2SF x <> S754_nan.
Proof.
  unfold PrimFloat.is_nan. rewrite eqb_spec. intros H E. rewrite E in H. discriminate.
Qed.

Lemma leb_true_not_nan (x y : float) :
  PrimFloat.leb x y = true -> Prim2SF x <> S754_nan /\ Prim2SF y <> S754_nan.
Proof.
  rewrite leb_spec. unfold SFleb, SFcompare.
  destruct (Prim2SF x), (Prim2SF y); try discriminate; split; discriminate.
Qed.

Lemma float_leb_trans (a b c : float) :
  PrimFloat.leb a b = true -> PrimFloat.leb b c = true -> PrimFloat.leb a c = true.
Proof.
  intros Hab Hbc.
  destruct (leb_true_not_nan Hab) as [Ha Hb].
  destruct (leb_true_not_nan Hbc) as [_ Hc].
  rewrite leb_spec in *. rewrite SFleb_key in * by assumption.
  unfold lex_le in *.
  destruct (key (Prim2SF a)) as [[a1 a2] a3], (key (Prim2SF b)) as [[b1 b2] b3],
           (key (Prim2SF c)) as [[c1 c2] c3]. lia.
Qed.

Lemma float_leb_total (a b : float) :
  PrimFloat.is_nan a = false -> PrimFloat.is_nan b = false ->
  PrimFloat.leb a b = true \/ PrimFloat.leb b a = true.
Proof.
  intros Ha Hb. apply is_nan_false in Ha, Hb.
  rewrite !leb_spec, !SFleb_key by assumption.
  unfold lex_le.
  destruct (key (Prim2SF a)) as [[a1 a2] a3], (key (Prim2SF b)) as [[b1 b2] b3]. lia.
Qed.

Lemma not_nan_is_nan (x : float) : Prim2SF x <> S754_nan -> PrimFloat.is_nan x = false.
Proof.
  intros Hx. unfold PrimFloat.is_nan. rewrite eqb_spec.
  unfold SFeqb, SFcompare.
  destruct (Prim2SF x) as [s|s| |s m e]; try congruence; destruct s; simpl;
    try reflexivity;
    rewrite Z.compare_refl; fold (Pos.compare m m); now rewrite Pos.compare_refl.
Qed.

Lemma float_leb_number (a b : float) :
  PrimFloat.leb a b = true -> PrimFloat.is_nan a = false /\ PrimFloat.is_nan b = false.
Proof.
  intros Hab. destruct (leb_true_not_nan Hab) as [Ha Hb].
  split; now apply not_nan_is_nan.
Qed.

#[export] Instance float64_order : ScalarOrder float := {
  fle_trans := float_leb_trans;
  fle_total := float_leb_total;
  fle_number := float_leb_number
}.

(** C2. For a training matrix of M >= 1 rows, M labels and a test matrix of
    N rows of the same width, [nearest_neighbour] divides the matrix of dot
    products, elementwise, by the outer product of the rows' L2 norms:
    cell (i, k) is the cosine similarity of test row i and training row k.
    It returns N labels, in test-row order: that of the training row with
    the greatest similarity, the one of lowest index when several are
    greatest.  Where the similarities of a row are all numbers, greatest
    is greatest for [<=]. *)
Theorem nearest_neighbour_spec :
  forall (F : Type) (SF : Scalar F) (SO : ScalarOrder F)
         (train : ndarray F) (labels : list label) (test : ndarray F),
    wf train -> wf test -> ncols test = ncols train ->
    0 < nrows train -> length labels = nrows train ->
    (exists x,
        np_dot test (np_transpose train) = Ok x /\
        np_divide x (np_outer (row_norms test) (row_norms train))
        = NdArray (nrows test) (nrows train) (cosine_matrix train test)) /\
    (forall i k, i < nrows test -> k < nrows train ->
        cell (cosine_matrix train test) i k
        = fdiv (inner (nth i (rows test) []) (nth k (rows train) []))
               (fmul (l2_norm (nth i (rows test) [])) (l2_norm (nth k (rows train) [])))) /\
    exists nearest,
      nearest_neighbour train labels test
      = Ok (map (fun k => nth k labels EmptyString) nearest) /\
      length (map (fun k => nth k labels EmptyString) nearest) = nrows test /\
      forall i, i < nrows test ->
        let sims := nth i (cosine_matrix train test) [] in
        let k := nth i nearest 0 in
        first_max sims k /\
        (no_nan sims ->
         (forall j, j < nrows train -> fle (nth j sims fzero) (nth k sims fzero) = true) /\
         (forall j, j < k -> fle (nth k sims fzero) (nth j sims fzero) = false)).
Proof.
  intros F SF SO train labels test Htr Hte Hcols Hpos Hlab.
  split; [|split].
  - destruct (np_dot_ok test (np_transpose train) Hcols) as [x Hx].
    exists x. split; [exact Hx | now apply dist_is_cosine_matrix].
  - intros i k Hi Hk. unfold cell.
    destruct Htr as [Hl _], Hte as [Hl' _].
    rewrite cosine_matrix_cell by lia. reflexivity.
  - destruct (nearest_neighbour_argmax labels Htr Hte Hcols Hpos Hlab)
      as [nearest [Heq [Hlen Hfm]]].
    exists nearest. rewrite length_map. split; [exact Heq|]. split; [exact Hlen|].
    intros i Hi sims k. split; [now apply Hfm|].
    intros Hnn. destruct (first_max_numbers Hnn (Hfm i Hi)) as [Hall Hlow].
    split; [|exact Hlow].
    intros j Hj. apply Hall. unfold sims.
    rewrite cosine_matrix_row by (destruct Hte; lia).
    rewrite length_map. destruct Htr; lia.
Qed.

Lemma nearest_neighbour_spec_witness :
  (wf train_AB /\ wf test_BA) /\
  nearest_neighbour train_AB ["A"; "B"]%string test_BA = Ok ["B"; "A"]%string.
Proof.
  assert (Htr : wf train_AB) by (repeat constructor).
  assert (Hte : wf test_BA) by (repeat constructor).
  split; [auto|].
  assert (Hc : ncols test_BA = ncols train_AB) by reflexivity.
  assert (Hp : 0 < nrows train_AB) by (simpl; lia).
  assert (Hl : length ["A"; "B"]%string = nrows train_AB) by reflexivity.
  destruct (@nearest_neighbour_spec float float64 float64_order
              train_AB ["A"; "B"]%string test_BA Htr Hte Hc Hp Hl)
    as [_ [_ [nearest [Heq _]]]].
  rewrite Heq. revert Heq. vm_compute. intros Heq. now inversion Heq.
Defined.

(** C8, as stated, fails twice.  The test vector (1, 0) is training row 1,
    labelled B, yet it is given the label A of row 0 = (2, 0), which is as
    similar to it and comes first.  And the test vector (1, 1) is training
    row 0, labelled A, yet it is given the label B of row 1 = (3, 3): in
    binary64 the similarity of (1, 1) with itself is below 1, that with
    (3, 3) is 1. *)
Lemma identical_vector_counterexample :
  (nonzero_norms train_scaled /\ nonzero_norms test_unit /\
   nth 0 (rows test_unit) [] = nth 1 (rows train_scaled) [] /\
   nearest_neighbour train_scaled ["A"; "B"]%string test_unit = Ok ["A"]%string /\
   nth 1 ["A"; "B"]%string EmptyString <> "A"%string) /\
  (nonzero_norms train_diag /\ nonzero_norms test_diag /\
   nth 0 (rows test_diag) [] = nth 0 (rows train_diag) [] /\
   nearest_neighbour train_diag ["A"; "B"]%string test_diag = Ok ["B"]%string /\
   nth 0 ["A"; "B"]%string EmptyString <> "B"%string /\
   cosine_similarity [1; 1]%float [1; 1]%float <> 1%float /\
   PrimFloat.ltb (cosine_similarity [1; 1]%float [1; 1]%float) 1 = true).
Proof.
  split.
  - repeat split; try (repeat constructor); try reflexivity. discriminate.
  - repeat split; try (repeat constructor); try reflexivity; try discriminate.
Qed.

(** C8, amended.  Let test row i be identical to training row k, on
    well-shaped inputs.  Its row of the similarity matrix is then the row
    of similarities of training row k with the training rows, and
    [nearest_neighbour] gives it the label of the first training row most
    similar to row k.  That is the label of row k itself as soon as no
    training row is computed more similar to row k than row k is to
    itself, and every training row before k that is computed as similar
    carries the label of row k.  The similarity recorded for the vector
    with itself is that of row k with itself; nothing makes it 1.0. *)
Theorem identical_vector_label :
  forall (F : Type) (SF : Scalar F) (SO : ScalarOrder F)
         (train : ndarray F) (labels : list label) (test : ndarray F) (i k : nat),
    wf train -> wf test -> ncols test = ncols train -> length labels = nrows train ->
    i < nrows test -> k < nrows train ->
    nth i (rows test) [] = nth k (rows train) [] ->
    let r := nth k (rows train) [] in
    exists out m,
      nearest_neighbour train labels test = Ok out /\
      nth i (cosine_matrix train test) [] = map (cosine_similarity r) (rows train) /\
      cell (cosine_matrix train test) i k = cosine_similarity r r /\
      first_max (map (cosine_similarity r) (rows train)) m /\
      nth i out EmptyString = nth m labels EmptyString /\
      ((forall j, j < nrows train ->
          np_le (cosine_similarity r (nth j (rows train) []))
                (cosine_similarity r r) = true) ->
       (forall j, j < k ->
          np_le (cosine_similarity r r)
                (cosine_similarity r (nth j (rows train) [])) = true ->
          nth j labels EmptyString = nth k labels EmptyString) ->
       nth i out EmptyString = nth k labels EmptyString).
Proof.
  intros F SF SO train labels test i k Htr Hte Hcols Hlab Hi Hk Hsame r.
  assert (Hpos : 0 < nrows train) by lia.
  destruct (nearest_neighbour_argmax labels Htr Hte Hcols Hpos Hlab)
    as [nearest [Heq [Hlen Hfm]]].
  assert (Hl : length (rows train) = nrows train) by (now destruct Htr).
  assert (Hl' : length (rows test) = nrows test) by (now destruct Hte).
  assert (Hrow : nth i (cosine_matrix train test) []
                 = map (cosine_similarity r) (rows train)).
  { rewrite cosine_matrix_row by lia. now rewrite Hsame. }
  assert (Hcell : forall j, j < nrows train ->
            nth j (map (cosine_similarity r) (rows train)) fzero
            = cosine_similarity r (nth j (rows train) [])).
  { intros j Hj.
    rewrite (nth_indep _ fzero (cosine_similarity r [])) by (rewrite length_map; lia).
    now rewrite (map_nth (cosine_similarity r)). }
  specialize (Hfm i Hi). rewrite Hrow in Hfm.
  set (m := nth i nearest 0) in *.
  assert (Hout : nth i (map (fun k0 => nth k0 labels EmptyString) nearest) EmptyString
                 = nth m labels EmptyString).
  { set (f := fun k0 : nat => nth k0 labels EmptyString).
    rewrite (nth_indep (map f nearest) EmptyString (f 0)) by (rewrite length_map; lia).
    now rewrite map_nth. }
  exists (map (fun k0 => nth k0 labels EmptyString) nearest), m.
  split; [exact Heq|]. split; [exact Hrow|]. split.
  { unfold cell. rewrite Hrow. now apply Hcell. }
  split; [exact Hfm|]. split; [exact Hout|].
  intros Hmax Hties. rewrite Hout.
  destruct Hfm as [Hm [Hall Hlow]]. rewrite length_map in Hm, Hall.
  destruct (Nat.lt_trichotomy m k) as [Hlt|[->|Hgt]].
  - apply Hties; [exact Hlt|].
    specialize (Hall k ltac:(lia)). rewrite !Hcell in Hall by lia. exact Hall.
  - reflexivity.
  - specialize (Hlow k Hgt). rewrite !Hcell in Hlow by lia.
    specialize (Hmax m ltac:(lia)).
    change (nth k (rows train) []) with r in Hlow. congruence.
Qed.

(** Two runs.  On [train_AB] the vector (0, 1) is training row 1 and nothing
    is as similar to it: it gets the label of row 1.  On [train_scaled] with
    one label for both rows, the vector (1, 0) is training row 1; row 0 is
    as similar and comes first, and carries the same label. *)
Lemma identical_vector_label_witness :
  nearest_neighbour train_AB ["A"; "B"]%string test_second = Ok ["B"]%string /\
  nearest_neighbour train_scaled ["A"; "A"]%string test_unit = Ok ["A"]%string.
Proof.
  assert (Htr : wf train_AB) by (repeat constructor).
  assert (Hte : wf test_second) by (repeat constructor).
  assert (Htr' : wf train_scaled) by (repeat constructor).
  assert (Hte' : wf test_unit) by (repeat constructor).
  split.
  - destruct (@identical_vector_label float float64 float64_order
                train_AB ["A"; "B"]%string test_second 0 1
                Htr Hte eq_refl eq_refl) as [out [m [Heq [_ [_ [_ [_ Hown]]]]]]];
      [simpl; lia | simpl; lia | reflexivity |].
    assert (Hlab : nth 0 out EmptyString = "B"%string).
    { apply Hown.
      - intros j Hj. simpl in Hj.
        destruct j as [|[|j]]; [reflexivity | reflexivity | lia].
      - intros j Hj. destruct j as [|j]; [|lia]. vm_compute. discriminate. }
    rewrite Heq. revert Heq Hlab. vm_compute. intros Heq Hlab.
    apply Ok_inj in Heq. subst out. reflexivity.
  - destruct (@identical_vector_label float float64 float64_order
                train_scaled ["A"; "A"]%string test_unit 0 1
                Htr' Hte' eq_refl eq_refl) as [out [m [Heq [_ [_ [_ [_ Hown]]]]]]];
      [simpl; lia | simpl; lia | reflexivity |].
    assert (Hlab : nth 0 out EmptyString = "A"%string).
    { apply Hown.
      - intros j Hj. simpl in Hj.
        destruct j as [|[|j]]; [reflexivity | reflexivity | lia].
      - intros j Hj _. destruct j as [|j]; [reflexivity | lia]. }
    rewrite Heq. revert Heq Hlab. vm_compute. intros Heq Hlab.
    apply Ok_inj in Heq. subst out. reflexivity.
Defined.

(** * Further properties *)

(** ** Bounding box of several pages *)

Lemma list_max_perm (l l' : list nat) : Permutation l l' -> list_max l = list_max l'.
Proof.
  induction 1; simpl; lia.
Qed.

Lemma get_bounding_box_size_nonempty (F : Type) (images : list (ndarray F)) :
  images <> [] ->
  get_bounding_box_size images
  = Ok (list_max (map (@nrows F) images), list_max (map (@ncols F) images)).
Proof.
  intros Hne.
  assert (Hh : map (@nrows F) images <> []) by (destruct images; simpl; congruence).
  assert (Hw : map (@ncols F) images <> []) by (destruct images; simpl; congruence).
  unfold get_bounding_box_size.
  now rewrite (py_max_list_max Hh), (py_max_list_max Hw).
Qed.

Lemma get_bounding_box_size_ok (F : Type) (images : list (ndarray F)) (h w : nat) :
  get_bounding_box_size images = Ok (h, w) ->
  images <> [] /\ h = list_max (map (@nrows F) images) /\ w = list_max (map (@ncols F) images).
Proof.
  intros Hb. assert (Hne : images <> []) by (intros ->; discriminate).
  split; [exact Hne|].
  rewrite (get_bounding_box_size_nonempty Hne) in Hb.
  apply Ok_inj in Hb. inversion Hb. auto.
Qed.

(** X1. The box of the images of two pages read one after the other is the
    componentwise maximum of the two pages' boxes, and the order in which
    the images come does not matter. *)
Theorem bounding_box_of_pages :
  forall (F : Type) (page1 page2 : list (ndarray F)) (h1 w1 h2 w2 : nat),
    get_bounding_box_size page1 = Ok (h1, w1) ->
    get_bounding_box_size page2 = Ok (h2, w2) ->
    forall images, Permutation (page1 ++ page2) images ->
      get_bounding_box_size images = Ok (Nat.max h1 h2, Nat.max w1 w2).
Proof.
  intros F page1 page2 h1 w1 h2 w2 H1 H2 images Hp.
  apply get_bounding_box_size_ok in H1 as [Hn1 [-> ->]].
  apply get_bounding_box_size_ok in H2 as [Hn2 [-> ->]].
  assert (Hne : images <> []).
  { intros ->. apply Permutation_sym, Permutation_nil in Hp.
    destruct page1; [congruence | discriminate]. }
  rewrite (get_bounding_box_size_nonempty Hne).
  rewrite <- (list_max_perm (Permutation_map (@nrows F) Hp)).
  rewrite <- (list_max_perm (Permutation_map (@ncols F) Hp)).
  now rewrite !map_app, !list_max_app.
Qed.

Lemma bounding_box_of_pages_witness :
  get_bounding_box_size [img_3x3; img_2x2; img_1x2] = Ok (3, 3).
Proof.
  assert (H1 : get_bounding_box_size [img_1x2; img_2x2] = Ok (2, 2)) by reflexivity.
  assert (H2 : get_bounding_box_size [img_3x3] = Ok (3, 3)) by reflexivity.
  assert (Hp : Permutation ([img_1x2; img_2x2] ++ [img_3x3]) [img_3x3; img_2x2; img_1x2]).
  { simpl. apply Permutation_sym. apply (Permutation_rev [img_3x3; img_2x2; img_1x2]). }
  exact (@bounding_box_of_pages float [img_1x2; img_2x2] [img_3x3] 2 2 3 3 H1 H2 _ Hp).
Defined.

(** ** Feature vectors: the default box, and back again *)

Section FeatureExtras.
Context {F : Type} {SF : Scalar F}.

Lemma nth_padded_row (b : nat * nat) (images : list (ndarray F)) (k : nat) (image : ndarray F) :
  nth_error images k = Some image ->
  nth k (map (padded_row b) images) [] = padded_row b image.
Proof.
  intros Hk. rewrite (nth_indep _ [] (padded_row b image)).
  - rewrite map_nth. erewrite nth_error_nth by exact Hk. reflexivity.
  - rewrite length_map. apply nth_error_Some. congruence.
Qed.

Lemma padded_image_wf (H W : nat) (image : ndarray F) :
  wf image -> wf (NdArray H W (padded_image H W image)).
Proof.
  intros Hwf. split; simpl.
  - apply padded_image_length.
  - now apply padded_image_row_length.
Qed.

Lemma padded_row_again (H W : nat) (image : ndarray F) :
  wf image ->
  padded_row (H, W) (NdArray H W (reshape2 H W (padded_row (H, W) image)))
  = padded_row (H, W) image.
Proof.
  intros Hwf. rewrite !padded_row_concat.
  assert (Hre : reshape2 H W (concat (padded_image H W image)) = padded_image H W image).
  { rewrite <- (padded_image_length H W image) at 1.
    apply reshape2_concat. now apply padded_image_row_length. }
  rewrite Hre. f_equal.
  pose proof (padded_image_wf H W Hwf) as Hp.
  rewrite (@slice2_cover _ _ H W _ Hp) by (simpl; lia).
  exact (slice2_all Hp).
Qed.

End FeatureExtras.

(** X2. When no box is given, the box is the bounding box of the images
    and no image is cropped: every pixel of every image is in its row, at
    the place row-major order gives it, and the rest of the row is 255. *)
Theorem default_box_keeps_every_pixel :
  forall (F : Type) (SF : Scalar F) (images : list (ndarray F)),
    images <> [] -> Forall wf images ->
    let H := list_max (map (@nrows F) images) in
    let W := list_max (map (@ncols F) images) in
    exists fvectors,
      images_to_feature_vectors images None = Ok fvectors /\
      nrows fvectors = length images /\ ncols fvectors = H * W /\
      forall k image, nth_error images k = Some image ->
        let row := nth k (rows fvectors) [] in
        (forall i j, i < nrows image -> j < ncols image ->
           nth (i * W + j) row fzero = cell (rows image) i j) /\
        (forall i j, i < H -> j < W -> nrows image <= i \/ ncols image <= j ->
           nth (i * W + j) row fzero = fofnat 255).
Proof.
  intros F SF images Hne Hwf H W.
  rewrite (images_to_feature_vectors_default_box SF Hne).
  fold H. fold W. rewrite images_to_feature_vectors_rows.
  eexists. split; [reflexivity|]. split; [reflexivity|]. split; [reflexivity|].
  intros k image Hk. simpl rows. cbv zeta.
  rewrite (nth_padded_row (H, W) images k Hk), padded_row_concat.
  assert (Hi : wf image).
  { rewrite Forall_forall in Hwf. eapply Hwf, nth_error_In, Hk. }
  assert (Hh : nrows image <= H).
  { apply list_max_upper, in_map. eapply nth_error_In, Hk. }
  assert (Hw : ncols image <= W).
  { apply list_max_upper, in_map. eapply nth_error_In, Hk. }
  pose proof (padded_image_row_length H W Hi) as Hr.
  split.
  - intros i j Hil Hjl.
    rewrite nth_concat_uniform by (assumption || lia).
    rewrite padded_image_cell by (assumption || lia).
    rewrite !Nat.min_l by assumption.
    apply Nat.ltb_lt in Hil, Hjl. now rewrite Hil, Hjl.
  - intros i j Hil Hjl Hout.
    rewrite nth_concat_uniform by assumption.
    rewrite padded_image_cell by assumption.
    rewrite !Nat.min_l by assumption.
    destruct Hout as [Hout|Hout].
    + apply Nat.ltb_ge in Hout. now rewrite Hout.
    + apply Nat.ltb_ge in Hout. rewrite Hout. now rewrite andb_false_r.
Qed.

Lemma default_box_keeps_every_pixel_witness :
  Forall wf [img_1x2; img_3x3] /\
  images_to_feature_vectors [img_1x2; img_3x3] None
  = Ok (f64 2 9 [[1; 2; 255; 255; 255; 255; 255; 255; 255];
                 [1; 2; 3; 4; 5; 6; 7; 8; 9]]%float).
Proof.
  assert (Hne : [img_1x2; img_3x3] <> []) by discriminate.
  assert (Hwf : Forall wf [img_1x2; img_3x3]) by (repeat constructor).
  split; [exact Hwf|].
  destruct (@default_box_keeps_every_pixel float float64 [img_1x2; img_3x3] Hne Hwf)
    as [fvectors [Heq _]].
  rewrite Heq. revert Heq. vm_compute. intros Heq. now inversion Heq.
Defined.

(** X3. A feature vector reshaped to the box is an image of the size of the
    box, and its feature vector is the vector itself: vectorizing,
    reshaping and vectorizing again changes nothing. *)
Theorem feature_vectors_round_trip :
  forall (F : Type) (SF : Scalar F) (images : list (ndarray F)) (H W : nat)
         (fvectors : ndarray F),
    Forall wf images ->
    images_to_feature_vectors images (Some (H, W)) = Ok fvectors ->
    images_to_feature_vectors
      (map (fun row => NdArray H W (reshape2 H W row)) (rows fvectors)) (Some (H, W))
    = Ok fvectors.
Proof.
  intros F SF images H W fvectors Hwf Heq.
  rewrite images_to_feature_vectors_rows in Heq. apply Ok_inj in Heq. subst fvectors.
  rewrite images_to_feature_vectors_rows. simpl rows. simpl fst. simpl snd.
  rewrite !length_map, !map_map. f_equal. f_equal.
  apply map_ext_in. intros image Hin.
  apply padded_row_again. rewrite Forall_forall in Hwf. now apply Hwf.
Qed.

Lemma feature_vectors_round_trip_witness :
  Forall wf [img_1x2; img_3x3] /\
  images_to_feature_vectors
    [f64 2 2 [[1; 2]; [255; 255]]%float; f64 2 2 [[1; 2]; [4; 5]]%float] (Some (2, 2))
  = Ok (f64 2 4 [[1; 2; 255; 255]; [1; 2; 4; 5]]%float).
Proof.
  assert (Hwf : Forall wf [img_1x2; img_3x3]) by (repeat constructor).
  split; [exact Hwf|].
  assert (Heq : images_to_feature_vectors [img_1x2; img_3x3] (Some (2, 2))
                = Ok (f64 2 4 [[1; 2; 255; 255]; [1; 2; 4; 5]]%float)) by reflexivity.
  exact (@feature_vectors_round_trip float float64 [img_1x2; img_3x3] 2 2 _ Hwf Heq).
Defined.

(** ** PCA: what a reduction leaves alone *)

Section ReductionFrame.
Context {F : Type} {SF : Scalar F} {LA : LinAlg F}.

Lemma pca_pass_nrows (v fv r : ndarray F) (d nd : Z) :
  pca_pass v d nd fv = Ok r -> nrows r = nrows fv.
Proof.
  unfold pca_pass, pca_reconstruct, pca_project.
  destruct (np_dot (centre fv) v) as [p|e] eqn:Hp.
  - apply np_dot_shape in Hp as [Hp _]. simpl in Hp.
    destruct (d =? nd)%Z; simpl.
    + destruct (np_dot p (np_transpose v)) as [q|e] eqn:Hq; [|discriminate].
      apply np_dot_shape in Hq as [Hq _]. simpl. intros Heq.
      apply Ok_inj in Heq. subst r. simpl. congruence.
    + intros Heq. congruence.
  - destruct (d =? nd)%Z; discriminate.
Qed.

Lemma doPCA_nrows (w : world F) (fv : ndarray F) (d : Z) :
  forall r, fst (doPCA fv d w) = Ok r -> nrows r = nrows fv.
Proof.
  intros r. rewrite doPCA_result.
  destruct (basis_in_use fv d w) as [v|e]; simpl; [|discriminate].
  apply pca_pass_nrows.
Qed.

Lemma doPCA_calls (w : world F) (fv : ndarray F) (d : Z) :
  exists l, calls (snd (doPCA fv d w)) = calls w ++ l.
Proof.
  destruct (Nat.eqb_spec (np_size (np_array (eigenvector (model w)))) 0) as [He|Hne].
  - rewrite (doPCA_fit w fv d He).
    destruct (np_cov fv false) as [c|covx]; [simpl; eauto|].
    cbv zeta. destruct (eigh _ _) as [wv|e]; simpl; eauto.
  - rewrite (doPCA_reuse w fv d Hne). exists []. simpl. now rewrite app_nil_r.
Qed.

Lemma reduce_dimensions_calls_nrows (w : world F) (fv : ndarray F) :
  (exists l, calls (snd (reduce_dimensions fv w)) = calls w ++ l) /\
  (forall r, fst (reduce_dimensions fv w) = Ok r -> nrows r = nrows fv).
Proof.
  unfold reduce_dimensions, bind, get_model.
  destruct (doPCA_calls w fv (noise_dim (model w))) as [l1 Hl1].
  pose proof (doPCA_nrows w fv (noise_dim (model w))) as Hn1.
  destruct (doPCA fv (noise_dim (model w)) w) as [[r1|e1] w1]; simpl in *;
    [|split; [eauto | discriminate]].
  destruct (doPCA_calls w1 r1 (dim (model w))) as [l2 Hl2].
  pose proof (doPCA_nrows w1 r1 (dim (model w))) as Hn2.
  destruct (doPCA r1 (dim (model w)) w1) as [[r2|e2] w2]; simpl in *.
  - split.
    + exists (l1 ++ l2). now rewrite Hl2, Hl1, app_assoc.
    + intros r Heq. apply Ok_inj in Heq. subst r.
      rewrite (Hn2 r2 eq_refl). now apply Hn1.
  - split; [|discriminate].
    exists (l1 ++ l2). now rewrite Hl2, Hl1, app_assoc.
Qed.

Lemma load_test_page_unfold (w : world F) (images : list (ndarray F)) :
  let fv := NdArray (length images) (fst (bbox_size (model w)) * snd (bbox_size (model w)))
                    (map (padded_row (bbox_size (model w))) images) in
  snd (load_test_page images w) = snd (reduce_dimensions fv w) /\
  fst (load_test_page images w) = fst (reduce_dimensions fv w).
Proof.
  intros fv. unfold load_test_page, bind, get_model, lift.
  rewrite images_to_feature_vectors_rows. fold fv.
  destruct (reduce_dimensions fv w) as [[r|e] w']; simpl; auto.
Qed.

End ReductionFrame.

(** X4. Whatever the model and the batch, and whether they succeed or
    raise, [doPCA], [reduce_dimensions] and [load_test_page] write no
    entry of the model but ['eigenvector'], and only ever add to the log
    of library calls.  When they return, they return one row per row of
    the batch ([load_test_page]: one row per image). *)
Theorem reductions_write_only_the_basis :
  forall (F : Type) (SF : Scalar F) (LA : LinAlg F)
         (w : world F) (fv : ndarray F) (d : Z) (images : list (ndarray F)),
    (same_but_basis (model w) (model (snd (doPCA fv d w))) /\
     (exists l, calls (snd (doPCA fv d w)) = calls w ++ l) /\
     (forall r, fst (doPCA fv d w) = Ok r ->
        nrows r = nrows fv /\ length (rows r) = length (rows fv))) /\
    (same_but_basis (model w) (model (snd (reduce_dimensions fv w))) /\
     (exists l, calls (snd (reduce_dimensions fv w)) = calls w ++ l) /\
     (forall r, fst (reduce_dimensions fv w) = Ok r ->
        nrows r = nrows fv /\ length (rows r) = length (rows fv))) /\
    (same_but_basis (model w) (model (snd (load_test_page images w))) /\
     (exists l, calls (snd (load_test_page images w)) = calls w ++ l) /\
     (forall r, fst (load_test_page images w) = Ok r ->
        nrows r = length images /\ length (rows r) = length images)).
Proof.
  intros F SF LA w fv d images.
  split; [|split].
  - destruct (doPCA_frame w fv d) as [Hm Hr].
    split; [exact Hm|]. split; [apply doPCA_calls|].
    intros r Hok. split; [now apply (doPCA_nrows w fv d) | now apply Hr].
  - destruct (reduce_dimensions_frame w fv) as [Hm Hr].
    destruct (reduce_dimensions_calls_nrows w fv) as [Hc Hn].
    split; [exact Hm|]. split; [exact Hc|].
    intros r Hok. split; [now apply Hn | now apply Hr].
  - destruct (load_test_page_unfold w images) as [Hs Hf].
    rewrite Hs, Hf.
    match goal with |- context [reduce_dimensions ?x w] => set (fv' := x) end.
    destruct (reduce_dimensions_frame w fv') as [Hm Hr].
    destruct (reduce_dimensions_calls_nrows w fv') as [Hc Hn].
    split; [exact Hm|]. split; [exact Hc|].
    intros r Hok. split.
    + now rewrite (Hn r Hok).
    + rewrite (Hr r Hok). unfold fv'. simpl. apply length_map.
Qed.

(** ** Inference on a stored basis, training on none *)

Section PipelineShapes.
Context {F : Type} {SF : Scalar F} {LA : LinAlg F}.

Lemma np_dot_wf (a b r : ndarray F) :
  np_dot a b = Ok r -> length (rows a) = nrows a -> wf r.
Proof.
  unfold np_dot. destruct (ncols a =? nrows b); [|discriminate].
  intros Heq Hl. apply Ok_inj in Heq. subst r. split; simpl.
  - now rewrite length_map.
  - apply Forall_forall. intros row Hin. apply in_map_iff in Hin as [x [<- _]].
    now rewrite !length_map, length_seq.
Qed.

Lemma pca_pass_wf (v fv r : ndarray F) (d nd : Z) :
  pca_pass v d nd fv = Ok r -> length (rows fv) = nrows fv -> wf r.
Proof.
  unfold pca_pass, pca_reconstruct, pca_project. intros Hr Hl.
  destruct (np_dot (centre fv) v) as [p|e] eqn:Hp;
    [|destruct (d =? nd)%Z; discriminate].
  assert (Hwp : wf p).
  { apply (np_dot_wf _ _ Hp). simpl. now rewrite length_map. }
  destruct (d =? nd)%Z; simpl in Hr.
  - destruct (np_dot p (np_transpose v)) as [q|e] eqn:Hq; [|discriminate].
    assert (Hwq : wf q) by (apply (np_dot_wf _ _ Hq); now destruct Hwp).
    apply Ok_inj in Hr. subst r. destruct Hwq as [Hq1 Hq2]. split; simpl.
    + now rewrite length_map.
    + apply Forall_forall. intros row Hin. apply in_map_iff in Hin as [x [<- Hx]].
      rewrite length_map. rewrite Forall_forall in Hq2. now apply Hq2.
  - congruence.
Qed.

Lemma pca_pass_ncols (v fv r : ndarray F) (d nd : Z) :
  pca_pass v d nd fv = Ok r ->
  ncols r = if (d =? nd)%Z then nrows v else ncols v.
Proof.
  unfold pca_pass, pca_reconstruct, pca_project.
  destruct (np_dot (centre fv) v) as [p|e] eqn:Hp;
    [|destruct (d =? nd)%Z; discriminate].
  apply np_dot_shape in Hp as [_ Hp].
  destruct (d =? nd)%Z; simpl.
  - destruct (np_dot p (np_transpose v)) as [q|e] eqn:Hq; [|discriminate].
    apply np_dot_shape in Hq as [_ Hq]. intros Heq. apply Ok_inj in Heq. subst r.
    simpl. exact Hq.
  - intros Heq. congruence.
Qed.

End PipelineShapes.

(** On a model whose stored basis is not empty and has as many rows as the
    stored box has cells, [load_test_page] succeeds on any list of images. *)
Lemma load_test_page_shape :
  forall (F : Type) (SF : Scalar F) (LA : LinAlg F)
         (w : world F) (images : list (ndarray F)),
    let m := model w in
    let v := np_array (eigenvector m) in
    np_size v <> 0 ->
    nrows v = fst (bbox_size m) * snd (bbox_size m) ->
    exists page,
      load_test_page images w = (Ok page, w) /\
      wf page /\
      nrows page = length images /\
      ncols page = (if (dim m =? noise_dim m)%Z then nrows v else ncols v).
Proof.
  intros F SF LA w images m v Hne Hrows.
  destruct (load_test_page_unfold w images) as [Hs Hf].
  fold m in Hs, Hf.
  set (fv := NdArray (length images) (fst (bbox_size m) * snd (bbox_size m))
                     (map (padded_row (bbox_size m)) images)) in *.
  rewrite (reduce_dimensions_reuse w fv Hne) in Hs, Hf. simpl in Hs, Hf.
  fold m v in Hf.
  assert (Hshape : ncols fv = nrows v) by (symmetry; exact Hrows).
  assert (Hlen : length (rows fv) = nrows fv) by (simpl; apply length_map).
  destruct (pca_reconstruct_ok v fv Hshape) as [r [Hr [Hrn Hrc]]].
  assert (Hwr : wf r).
  { apply (@pca_pass_wf _ _ v fv r (noise_dim m) (noise_dim m)); [|exact Hlen].
    unfold pca_pass. now rewrite Z.eqb_refl. }
  rewrite Hr in Hf. simpl in Hf.
  assert (Hok : is_ok (pca_pass v (dim m) (noise_dim m) r) = true)
    by (apply pca_pass_ok; congruence).
  destruct (pca_pass v (dim m) (noise_dim m) r) as [page|e] eqn:Hp; [|discriminate].
  exists page. split; [|split; [|split]].
  - destruct (load_test_page images w) as [res w']. simpl in Hs, Hf. congruence.
  - apply (pca_pass_wf _ _ _ _ Hp). now destruct Hwr.
  - rewrite (pca_pass_nrows _ _ _ _ Hp). simpl in Hrn. congruence.
  - exact (pca_pass_ncols _ _ _ _ Hp).
Qed.

(** X5. On a model with no basis, whose two dimensions differ,
    [reduce_dimensions] fits twice: a basis for the noise dimension on the
    batch, used for the reconstruction and not stored, then a basis for the
    final dimension on the reconstruction, which is stored.  It makes two
    covariance and two eigendecomposition calls, in that order, and returns
    the projection of the reconstruction on the stored basis.  The two
    covariances are taken to be matrices, and the two eigendecompositions
    and the reconstruction to return. *)
Theorem training_reduction_fits_twice :
  forall (F : Type) (SF : Scalar F) (LA : LinAlg F)
         (w : world F) (fv : ndarray F)
         (cov1 : ndarray F) (vals1 : list F) (vecs1 : ndarray F) (r1 : ndarray F)
         (cov2 : ndarray F) (vals2 : list F) (vecs2 : ndarray F),
    let m := model w in
    np_size (np_array (eigenvector m)) = 0 ->
    noise_dim m <> dim m ->
    np_cov fv false = Cov2 cov1 ->
    let N1 := Z.of_nat (nrows cov1) in
    eigh cov1 (N1 - noise_dim m, N1 - 1)%Z = Ok (vals1, vecs1) ->
    pca_reconstruct (np_fliplr vecs1) fv = Ok r1 ->
    np_cov r1 false = Cov2 cov2 ->
    let N2 := Z.of_nat (nrows cov2) in
    eigh cov2 (N2 - dim m, N2 - 1)%Z = Ok (vals2, vecs2) ->
    reduce_dimensions fv w
    = (pca_project (np_fliplr vecs2) r1,
       World (set_eigenvector (tolist (np_fliplr vecs2)) m)
             (calls w ++ [CallCov fv false; CallEigh cov1 (N1 - noise_dim m, N1 - 1)%Z;
                          CallCov r1 false; CallEigh cov2 (N2 - dim m, N2 - 1)%Z])).
Proof.
  intros F SF LA w fv cov1 vals1 vecs1 r1 cov2 vals2 vecs2 m He Hd
         Hc1 N1 H1 Hr1 Hc2 N2 H2.
  unfold reduce_dimensions, bind, get_model. fold m.
  rewrite (doPCA_fit w fv (noise_dim m) He), Hc1. cbv zeta.
  fold m N1. rewrite H1. simpl snd.
  assert (Hnd : (noise_dim m =? dim m)%Z = false) by (now apply Z.eqb_neq).
  assert (Hdn : (dim m =? noise_dim m)%Z = false)
    by (apply Z.eqb_neq; congruence).
  rewrite Hnd. unfold pca_pass at 1. rewrite Z.eqb_refl, Hr1.
  set (w1 := World m (calls w ++ [CallCov fv false;
                                  CallEigh cov1 (N1 - noise_dim m, N1 - 1)%Z])).
  rewrite (doPCA_fit w1 r1 (dim m) He), Hc2. cbv zeta. simpl model. simpl calls.
  fold N2. rewrite H2. simpl snd. rewrite Z.eqb_refl.
  unfold pca_pass. rewrite Hdn.
  rewrite <- app_assoc. simpl app.
  destruct (pca_project (np_fliplr vecs2) r1); reflexivity.
Qed.

Lemma training_reduction_fits_twice_witness :
  np_size (np_array (eigenvector untrained)) = 0 /\
  fst (@reduce_dimensions _ _ stand_in X4 (World untrained []))
  = Ok (f64 4 1 [[2]; [0]; [1]; [1]]%float) /\
  model (snd (@reduce_dimensions _ _ stand_in X4 (World untrained []))) = trained.
Proof.
  assert (He : np_size (np_array (eigenvector (model (World untrained [])))) = 0)
    by reflexivity.
  assert (Hd : noise_dim (model (World untrained [])) <> dim (model (World untrained [])))
    by discriminate.
  split; [exact He|].
  assert (Hc : np_cov (LinAlg := stand_in) X4 false
               = Cov2 (f64 2 2 [[0x1.5555555555555p-1; 0];
                                [0; 0x1.5555555555555p-3]]%float))
    by (vm_compute; reflexivity).
  assert (H1 : eigh (LinAlg := stand_in)
                 (f64 2 2 [[0x1.5555555555555p-1; 0]; [0; 0x1.5555555555555p-3]]%float)
                 (Z.of_nat 2 - noise_dim (model (World untrained [])),
                  Z.of_nat 2 - 1)%Z
               = Ok ([0x1.5555555555555p-3; 0x1.5555555555555p-1]%float,
                     f64 2 2 [[0; 1]; [1; 0]]%float)) by (vm_compute; reflexivity).
  assert (Hr1 : pca_reconstruct (np_fliplr (f64 2 2 [[0; 1]; [1; 0]]%float)) X4 = Ok X4)
    by (vm_compute; reflexivity).
  assert (H2 : eigh (LinAlg := stand_in)
                 (f64 2 2 [[0x1.5555555555555p-1; 0]; [0; 0x1.5555555555555p-3]]%float)
                 (Z.of_nat 2 - dim (model (World untrained [])),
                  Z.of_nat 2 - 1)%Z
               = Ok ([0x1.5555555555555p-1]%float, f64 2 1 [[1]; [0]]%float))
    by (vm_compute; reflexivity).
  rewrite (@training_reduction_fits_twice float float64 stand_in
             (World untrained []) X4 _ _ _ X4 _ _ _ He Hd Hc H1 Hr1 Hc H2).
  split; reflexivity.
Defined.

(** X6. A model returned by [process_training_data] is complete: it holds
    the labels it was given, the bounding box of the images, noise
    dimension 50 and final dimension 10, and one training vector per
    image, of which there is at least one. *)
Theorem training_returns_a_complete_model :
  forall (F : Type) (SF : Scalar F) (LA : LinAlg F)
         (images : list (ndarray F)) (labels : list label) (m : Model F),
    process_training_data images labels = Ok m ->
    images <> [] /\
    labels_train m = labels /\
    bbox_size m = (list_max (map (@nrows F) images), list_max (map (@ncols F) images)) /\
    noise_dim m = 50%Z /\ dim m = 10%Z /\
    exists fv, fvectors_train m = Some fv /\ length fv = length images.
Proof.
  intros F SF LA images labels m. unfold process_training_data.
  destruct (get_bounding_box_size images) as [b|e] eqn:Hb; [|discriminate].
  assert (Hbox : images <> [] /\ fst b = list_max (map (@nrows F) images)
                 /\ snd b = list_max (map (@ncols F) images)).
  { destruct b as [h w]. now apply get_bounding_box_size_ok in Hb. }
  destruct Hbox as [Hne [Hh Hw]].
  cbv beta iota delta [rbind]. rewrite images_to_feature_vectors_rows.
  match goal with |- context [reduce_dimensions ?fv ?w] =>
    destruct (reduce_dimensions_frame w fv) as [Hm Hr];
    destruct (reduce_dimensions fv w) as [[r|e] w'] end; [|discriminate].
  simpl in Hm, Hr. intros Heq. apply Ok_inj in Heq. subst m.
  destruct Hm as [Hl [Hbb [Hn [Hd _]]]]. simpl in *.
  split; [exact Hne|]. split; [exact Hl|].
  split; [rewrite Hbb; destruct b; simpl in *; congruence|].
  split; [exact Hn|]. split; [exact Hd|].
  eexists. split; [reflexivity|].
  unfold tolist. rewrite (Hr r eq_refl). apply length_map.
Qed.

Lemma training_returns_a_complete_model_witness :
  exists m, @process_training_data _ _ stand_in corpus corpus_labels = Ok m /\
            bbox_size m = (1, 50) /\ noise_dim m = 50%Z /\ dim m = 10%Z.
Proof.
  assert (Hok : is_ok (@process_training_data _ _ stand_in corpus corpus_labels) = true)
    by (vm_compute; reflexivity).
  destruct (@process_training_data _ _ stand_in corpus corpus_labels) as [m|e] eqn:Hm;
    [|discriminate].
  exists m. split; [reflexivity|].
  destruct (@training_returns_a_complete_model float float64 stand_in
              corpus corpus_labels m Hm) as [_ [_ [Hb [Hn [Hd _]]]]].
  split; [rewrite Hb; vm_compute; reflexivity | split; assumption].
Defined.

(** ** Nearest neighbour: when it returns, and what *)

Section NeighbourExtras.
Context {F : Type} {SF : Scalar F}.

Lemma argmax_from_bound (l : list F) :
  forall (mp : F) (best i : nat),
    best < i -> argmax_from mp best i l < i + length l.
Proof.
  induction l as [|x t IH]; intros mp best i Hb; simpl.
  - lia.
  - destruct (fisnan mp); [lia|].
    destruct (negb (fle x mp)).
    + specialize (IH x i (S i)). lia.
    + specialize (IH mp best (S i)). lia.
Qed.

Lemma argmax_row_bound (l : list F) (k : nat) :
  argmax_row l = Ok k -> k < length l.
Proof.
  destruct l as [|x t]; [discriminate|]. simpl. intros Heq. apply Ok_inj in Heq.
  subst k. pose proof (argmax_from_bound t x (best := 0) (i := 1)). simpl. lia.
Qed.

Lemma rmap_inv (A B : Type) (f : A -> result B) (l : list A) :
  forall ys, rmap f l = Ok ys -> Forall2 (fun x y => f x = Ok y) l ys.
Proof.
  induction l as [|x l IH]; intros ys; simpl.
  - intros Heq. apply Ok_inj in Heq. subst ys. constructor.
  - destruct (f x) as [y|e] eqn:Hx; simpl; [|discriminate].
    destruct (rmap f l) as [ys'|e] eqn:Hl; simpl; [|discriminate].
    intros Heq. apply Ok_inj in Heq. subst ys. constructor; auto.
Qed.

Lemma Forall2_in_right (A B : Type) (R : A -> B -> Prop) (l : list A) (l' : list B) (y : B) :
  Forall2 R l l' -> In y l' -> exists x, In x l /\ R x y.
Proof.
  induction 1 as [|x y' l l' Hxy _ IH]; intros Hin; [destruct Hin|].
  destruct Hin as [->|Hin].
  - exists x. split; [now left | exact Hxy].
  - destruct (IH Hin) as [x' [Hx' Hr]]. exists x'. split; [now right | exact Hr].
Qed.

Lemma rmap_total (A B : Type) (f : A -> result B) (l : list A) :
  (forall x, In x l -> exists y, f x = Ok y) -> exists ys, rmap f l = Ok ys.
Proof.
  induction l as [|x l IH]; intros Hf; simpl; [eauto|].
  destruct (Hf x (or_introl eq_refl)) as [y ->]. simpl.
  destruct IH as [ys ->]; [intros z Hz; apply Hf; now right|]. simpl. eauto.
Qed.

Lemma take_inv (labels : list label) (idx : list nat) (out : list label) :
  take labels idx = Ok out ->
  length out = length idx /\ Forall (fun y => In y labels) out.
Proof.
  unfold take. intros Heq. apply rmap_inv in Heq.
  induction Heq as [|k y idx' out' Hk _ IH]; [split; [reflexivity | constructor]|].
  destruct IH as [Hlen Hin]. split; [simpl; congruence|].
  constructor; [|exact Hin].
  destruct (nth_error labels k) as [z|] eqn:Hz; [|discriminate].
  apply Ok_inj in Hk. subst z. eapply nth_error_In, Hz.
Qed.

Lemma zip_with_length (A B C : Type) (f : A -> B -> C) (l : list A) (l' : list B) :
  length (zip_with f l l') = Nat.min (length l) (length l').
Proof.
  revert l'; induction l as [|x l IH]; intros [|y l']; simpl; auto.
Qed.

Lemma np_dot_width (a b : ndarray F) :
  (exists r, np_dot a b = Ok r) <-> ncols a = nrows b.
Proof.
  unfold np_dot. destruct (Nat.eqb_spec (ncols a) (nrows b)) as [He|Hn].
  - split; eauto.
  - split; [intros [r Hr]; discriminate | contradiction].
Qed.

End NeighbourExtras.

(** On well-shaped matrices of one width, with a training row and labels
    for every training row, the classifier returns: each label is read at
    an index below the number of training rows. *)
Lemma nearest_neighbour_succeeds (F : Type) (SF : Scalar F)
    (train : ndarray F) (labels : list label) (test : ndarray F) :
  wf train -> wf test -> nrows train <= length labels ->
  ncols test = ncols train -> 0 < nrows train ->
  exists nearest,
    nearest_neighbour train labels test
    = Ok (map (fun k => nth k labels EmptyString) nearest) /\
    length nearest = nrows test /\
    Forall (fun k => k < nrows train) nearest.
Proof.
  intros Htr Hte Hlab Hw Hpos.
  destruct (np_dot_ok test (np_transpose train) Hw) as [x Hx].
  unfold nearest_neighbour. rewrite Hx. simpl rbind.
  rewrite (dist_is_cosine_matrix _ Htr Hx).
  unfold np_argmax_axis1. simpl ncols. simpl rows.
  replace (nrows train =? 0) with false by (symmetry; apply Nat.eqb_neq; lia).
  assert (Hrows : forall row, In row (cosine_matrix train test) ->
                  exists k, argmax_row row = Ok k).
  { intros row Hin. unfold cosine_matrix in Hin.
    apply in_map_iff in Hin as [t [<- _]].
    destruct Htr as [Hl _]. destruct (rows train); simpl in *; [lia | eauto]. }
  destruct (rmap_total argmax_row _ Hrows) as [nearest Hn].
  rewrite Hn. simpl rbind. apply rmap_inv in Hn.
  assert (Hb : Forall (fun k => k < nrows train) nearest).
  { apply Forall_forall. intros k Hk.
    destruct (@Forall2_in_right _ _ _ _ _ k Hn Hk) as [row [Hin Hrow]].
    apply argmax_row_bound in Hrow.
    unfold cosine_matrix in Hin. apply in_map_iff in Hin as [t [<- _]].
    rewrite length_map in Hrow. destruct Htr; lia. }
  exists nearest. split; [|split; [|exact Hb]].
  - apply take_ok. eapply Forall_impl; [|exact Hb]. simpl. intros; lia.
  - apply Forall2_length in Hn. rewrite <- Hn. unfold cosine_matrix.
    rewrite length_map. now destruct Hte.
Qed.

(** X7. Whenever [nearest_neighbour] returns, it returns one label per test
    row, each of them one of the training labels; and then the two
    matrices have the same width and there is a training row. *)
Theorem nearest_neighbour_returns_training_labels :
  forall (F : Type) (SF : Scalar F)
         (train : ndarray F) (labels : list label) (test : ndarray F) (out : list label),
    nearest_neighbour train labels test = Ok out ->
    length out = length (rows test) /\
    Forall (fun l => In l labels) out /\
    ncols test = ncols train /\ 0 < nrows train.
Proof.
  intros F SF train labels test out. unfold nearest_neighbour.
  destruct (np_dot test (np_transpose train)) as [x|e] eqn:Hx; [|discriminate].
  assert (Hw : ncols test = ncols train).
  { apply (proj1 (np_dot_width test (np_transpose train))). eauto. }
  simpl rbind. unfold np_argmax_axis1. simpl ncols.
  assert (Hcx : ncols x = nrows train) by (now apply np_dot_shape in Hx).
  rewrite Hcx.
  destruct (Nat.eqb_spec (nrows train) 0) as [Hz|Hnz]; [discriminate|].
  match goal with |- context [rmap argmax_row ?l] =>
    destruct (rmap argmax_row l) as [nearest|e] eqn:Hn end; [|discriminate].
  simpl rbind. intros Ht. apply take_inv in Ht as [Hlen Hin].
  apply rmap_inv in Hn. apply Forall2_length in Hn.
  simpl in Hn. rewrite zip_with_length in Hn.
  apply np_dot_rows_length in Hx.
  unfold np_outer, row_norms in Hn. simpl in Hn. rewrite !length_map in Hn.
  repeat split; try assumption; lia.
Qed.

Lemma nearest_neighbour_returns_training_labels_witness :
  nearest_neighbour train_AB ["A"; "B"]%string test_BA = Ok ["B"; "A"]%string /\
  ncols test_BA = ncols train_AB.
Proof.
  assert (Heq : nearest_neighbour train_AB ["A"; "B"]%string test_BA
                = Ok ["B"; "A"]%string) by reflexivity.
  split; [exact Heq|].
  exact (proj1 (proj2 (proj2
    (@nearest_neighbour_returns_training_labels float float64 _ _ _ _ Heq)))).
Defined.

(** X8. On well-shaped matrices and a label array that covers the training
    rows, [nearest_neighbour] returns exactly when the two matrices have the
    same width and there is at least one training row; otherwise it raises
    [ValueError]. *)
Theorem nearest_neighbour_returns_iff :
  forall (F : Type) (SF : Scalar F)
         (train : ndarray F) (labels : list label) (test : ndarray F),
    wf train -> wf test -> nrows train <= length labels ->
    (ncols test = ncols train /\ 0 < nrows train ->
     exists out, nearest_neighbour train labels test = Ok out) /\
    (~ (ncols test = ncols train /\ 0 < nrows train) ->
     nearest_neighbour train labels test = Raise ValueError).
Proof.
  intros F SF train labels test Htr Hte Hlab. split.
  - intros [Hw Hpos].
    destruct (@nearest_neighbour_succeeds F SF train labels test Htr Hte Hlab Hw Hpos)
      as [nearest [Heq _]].
    eauto.
  - intros Hnot.
    destruct (Nat.eqb_spec (ncols test) (ncols train)) as [Hw|Hw].
    + apply nearest_neighbour_no_training_row; [assumption | assumption | lia].
    + unfold nearest_neighbour, np_dot. simpl nrows.
      apply Nat.eqb_neq in Hw. now rewrite Hw.
Qed.

Lemma nearest_neighbour_returns_iff_witness :
  (wf train_AB /\ wf test_BA /\ wf img_3x3) /\
  (exists out, nearest_neighbour train_AB ["A"; "B"]%string test_BA = Ok out) /\
  nearest_neighbour train_AB ["A"; "B"]%string img_3x3 = Raise ValueError.
Proof.
  assert (Htr : wf train_AB) by (repeat constructor).
  assert (Hte : wf test_BA) by (repeat constructor).
  assert (Him : wf img_3x3) by (repeat constructor).
  assert (Hl : nrows train_AB <= length ["A"; "B"]%string) by (simpl; lia).
  split; [auto|]. split.
  - apply (proj1 (@nearest_neighbour_returns_iff float float64
                    train_AB ["A"; "B"]%string test_BA Htr Hte Hl)).
    split; [reflexivity | simpl; lia].
  - apply (proj2 (@nearest_neighbour_returns_iff float float64
                    train_AB ["A"; "B"]%string img_3x3 Htr Him Hl)).
    intros [Hw _]. discriminate.
Defined.

(** X9. Inference end to end. On a model whose stored basis is not empty
    and has one row per pixel of the stored box, whose two dimension
    settings differ, and whose stored training vectors are not empty, are
    as wide as the basis and have a label each, [load_test_page] followed by
    [classify_page] returns for ANY list of images: the model and the call
    log are left as they were, and there is one label per image, each of
    them a training label. *)
Theorem inference_labels_every_image :
  forall (F : Type) (SF : Scalar F) (LA : LinAlg F)
         (w : world F) (images : list (ndarray F)) (fvs : list (list F)),
    let m := model w in
    let v := np_array (eigenvector m) in
    np_size v <> 0 ->
    nrows v = fst (bbox_size m) * snd (bbox_size m) ->
    dim m <> noise_dim m ->
    fvectors_train m = Some fvs ->
    fvs <> [] ->
    Forall (fun r => length r = ncols v) fvs ->
    length fvs <= length (labels_train m) ->
    exists page out,
      load_test_page images w = (Ok page, w) /\
      classify_page page m = Ok out /\
      length out = length images /\
      Forall (fun l => In l (labels_train m)) out.
Proof.
  intros F SF LA w images fvs m v Hne Hrows Hdim Hfv Hnil Hwid Hlab.
  destruct (@load_test_page_shape F SF LA w images Hne Hrows)
    as [page [Hload [Hwf [Hn Hc]]]].
  fold m v in Hc.
  replace (dim m =? noise_dim m)%Z with false in Hc
    by (symmetry; apply Z.eqb_neq; exact Hdim).
  assert (Hhd : length (hd [] fvs) = ncols v).
  { destruct fvs as [|r fvs']; [congruence|]. simpl.
    now inversion Hwid. }
  assert (Htr : wf (np_array fvs)).
  { unfold wf, np_array. simpl. split; [reflexivity|].
    eapply Forall_impl; [|exact Hwid]. intros r Hr.
    cbv beta in Hr. rewrite Hr. symmetry. exact Hhd. }
  assert (Hw : ncols page = ncols (np_array fvs)).
  { unfold np_array. cbn [ncols]. rewrite Hc. symmetry. exact Hhd. }
  assert (Hpos : 0 < nrows (np_array fvs)).
  { unfold np_array. simpl. destruct fvs; [congruence | simpl; lia]. }
  assert (Hl : nrows (np_array fvs) <= length (labels_train m)).
  { unfold np_array. simpl. exact Hlab. }
  destruct (@nearest_neighbour_succeeds F SF (np_array fvs) (labels_train m)
              page Htr Hwf Hl Hw Hpos) as [nearest [Heq [Hlen Hb]]].
  exists page, (map (fun k => nth k (labels_train m) EmptyString) nearest).
  split; [exact Hload|]. split.
  - rewrite (classify_page_stored page m Hfv). exact Heq.
  - split.
    + rewrite length_map. congruence.
    + apply Forall_forall. intros l Hin.
      apply in_map_iff in Hin as [k [<- Hk]].
      apply nth_In. rewrite Forall_forall in Hb. specialize (Hb k Hk). lia.
Qed.

Lemma inference_labels_every_image_witness :
  exists page out,
    @load_test_page _ _ stand_in [img_1x2; img_3x3] (World ready [])
    = (Ok page, World ready []) /\
    classify_page page ready = Ok out /\
    length out = 2 /\
    Forall (fun l => In l (labels_train ready)) out.
Proof.
  assert (Hne : np_size (np_array (eigenvector (model (World ready [])))) <> 0)
    by (vm_compute; lia).
  assert (Hrows : nrows (np_array (eigenvector (model (World ready []))))
                  = fst (bbox_size (model (World ready [])))
                    * snd (bbox_size (model (World ready [])))) by reflexivity.
  assert (Hdim : dim (model (World ready [])) <> noise_dim (model (World ready [])))
    by discriminate.
  assert (Hfv : fvectors_train (model (World ready []))
                = Some [[2]; [0]; [1]; [1]]%float) by reflexivity.
  assert (Hnil : [[2]; [0]; [1]; [1]]%float <> []) by discriminate.
  assert (Hwid : Forall (fun r : list float =>
                   length r = ncols (np_array (eigenvector (model (World ready [])))))
                   [[2]; [0]; [1]; [1]]%float)
    by (repeat constructor).
  assert (Hlab : length [[2]; [0]; [1]; [1]]%float
                 <= length (labels_train (model (World ready []))))
    by (simpl; lia).
  exact (@inference_labels_every_image float float64 stand_in
           (World ready []) [img_1x2; img_3x3] [[2]; [0]; [1]; [1]]%float
           Hne Hrows Hdim Hfv Hnil Hwid Hlab).
Defined.

(** ** The k-nearest-neighbour attempt *)

Section SortLemmas.
Context {F : Type} {SF : Scalar F}.

Lemma stable_insert_perm (p : nat * F) (l : list (nat * F)) :
  Permutation (stable_insert p l) (p :: l).
Proof.
  induction l as [|q t IH]; simpl; [reflexivity|].
  destruct (py_lt (snd q) (snd p)); [|reflexivity].
  rewrite IH. apply perm_swap.
Qed.

Lemma stable_sorted_perm (l : list (nat * F)) : Permutation (stable_sorted l) l.
Proof.
  induction l as [|p t IH]; simpl; [reflexivity|].
  rewrite stable_insert_perm. now constructor.
Qed.

Context {SO : ScalarOrder F}.

Lemma stable_insert_sorted (p : nat * F) (l : list (nat * F)) :
  fisnan (snd p) = false ->
  Forall (fun q => fisnan (snd q) = false) l ->
  Forall (fun q => fst p < fst q) l ->
  StronglySorted before l ->
  StronglySorted before (stable_insert p l).
Proof.
  intros Hp Hnum Hidx Hs.
  induction l as [|q t IH]; simpl.
  - repeat constructor.
  - inversion Hnum as [|? ? Hq Hnt]; subst.
    inversion Hidx as [|? ? Hiq Hit]; subst.
    inversion Hs as [|? ? Hst Hqt]; subst.
    destruct (py_lt (snd q) (snd p)) eqn:Hlt.
    + constructor; [now apply IH|].
      apply Forall_forall. intros x Hx.
      apply (Permutation_in _ (stable_insert_perm p t)) in Hx.
      destruct Hx as [<-|Hx].
      * unfold py_lt in Hlt. apply andb_true_iff in Hlt as [H1 H2].
        apply negb_true_iff in H2. split; [exact H1|]. congruence.
      * rewrite Forall_forall in Hqt. now apply Hqt.
    + assert (Hpq : fle (snd p) (snd q) = true).
      { destruct (fle_total (snd p) (snd q) Hp Hq) as [H|H]; [exact H|].
        unfold py_lt in Hlt. rewrite H in Hlt. simpl in Hlt.
        now apply negb_false_iff in Hlt. }
      constructor; [exact Hs|].
      constructor; [split; [exact Hpq | intros _; exact Hiq]|].
      apply Forall_forall. intros x Hx.
      rewrite Forall_forall in Hqt, Hit.
      destruct (Hqt x Hx) as [Hqx _].
      split; [exact (fle_trans _ _ _ Hpq Hqx) | intros _; now apply Hit].
Qed.

Lemma stable_sorted_sorted (l : list (nat * F)) :
  Forall (fun q => fisnan (snd q) = false) l ->
  StronglySorted (fun p q => fst p < fst q) l ->
  StronglySorted before (stable_sorted l).
Proof.
  intros Hnum Hs. induction l as [|p t IH]; simpl; [constructor|].
  inversion Hnum; subst. inversion Hs; subst.
  apply stable_insert_sorted; auto.
  - eapply Permutation_Forall; [symmetry; apply stable_sorted_perm | assumption].
  - eapply Permutation_Forall; [symmetry; apply stable_sorted_perm | assumption].
Qed.

End SortLemmas.

(** The stable sort keeps the contract of [sorted]. *)
Lemma insertion_sort_laws (F : Type) (SF : Scalar F) :
  @PySortLaws F SF insertion_sort.
Proof.
  split.
  - intros l. apply stable_sorted_perm.
  - intros l _. reflexivity.
Qed.

Section AttemptLemmas.
Context {F : Type} {SF : Scalar F}.

Lemma rmap_map (A B C : Type) (f : B -> result C) (h : A -> B) (l : list A) :
  rmap f (map h l) = rmap (fun x => f (h x)) l.
Proof.
  induction l as [|x l IH]; simpl; [reflexivity|]. now rewrite IH.
Qed.

(** The dictionary of distances holds, in the order of the rows, each
    row's index and its distance. *)
Lemma distances_enumerate (f : list F -> result F) (l : list (list F)) (s : nat) :
  rmap (fun xt : nat * list F => rbind (f (snd xt)) (fun d => Ok (fst xt, d)))
       (combine (seq s (length l)) l)
  = rbind (rmap f l) (fun ds => Ok (combine (seq s (length ds)) ds)).
Proof.
  revert s. induction l as [|x l IH]; intros s; simpl; [reflexivity|].
  destruct (f x) as [d|e]; simpl; [|reflexivity].
  rewrite IH. destruct (rmap f l) as [ds|e]; simpl; reflexivity.
Qed.

(** Reading the first [k] entries of a list by index. *)
Lemma first_entries (A B : Type) (g : A -> B) (l : list A) (k : nat) :
  rmap (fun i => match nth_error l i with
                 | Some p => Ok (g p)
                 | None => Raise IndexError
                 end) (seq 0 k)
  = if k <=? length l then Ok (map g (firstn k l)) else Raise IndexError.
Proof.
  revert l. induction k as [|k IH]; intros l; [reflexivity|].
  destruct l as [|p l].
  - reflexivity.
  - cbn [seq rmap nth_error rbind]. rewrite <- seq_shift, rmap_map.
    cbn [nth_error]. rewrite IH. cbn [length].
    change (S k <=? S (length l)) with (k <=? length l).
    destruct (k <=? length l); reflexivity.
Qed.

Lemma vote_not_nil (r : label) (v : list (label * nat)) : vote r v <> [].
Proof.
  destruct v as [|[l c] t]; simpl; [discriminate|].
  destruct (String.eqb l r); discriminate.
Qed.

Lemma tally_not_nil (rs : list label) (v : list (label * nat)) :
  rs <> [] \/ v <> [] -> tally rs v <> [].
Proof.
  revert v. induction rs as [|r rs IH]; intros v H; simpl.
  - destruct H; congruence.
  - apply IH. right. apply vote_not_nil.
Qed.

(** The loop over the neighbours reads their labels, then counts. *)
Lemma count_votes_tally (labels : list label) (nbrs : list nat) (v : list (label * nat)) :
  count_votes labels nbrs v = rbind (take labels nbrs) (fun rs => Ok (tally rs v)).
Proof.
  revert v. induction nbrs as [|n rest IH]; intros v; [reflexivity|].
  unfold take. cbn [count_votes rmap].
  destruct (nth_error labels n) as [r|]; cbn [rbind]; [|reflexivity].
  rewrite IH. unfold take.
  destruct (rmap _ rest); reflexivity.
Qed.

Lemma insert_vote_length (p : label * nat) (l : list (label * nat)) :
  length (insert_vote p l) = S (length l).
Proof.
  induction l as [|q t IH]; simpl; [reflexivity|].
  destruct (snd p <? snd q); simpl; congruence.
Qed.

Lemma sorted_votes_length (v : list (label * nat)) :
  length (sorted_votes v) = length v.
Proof.
  induction v as [|p t IH]; simpl; [reflexivity|].
  rewrite insert_vote_length. congruence.
Qed.

Context {PS : PySort F} {PL : PySortLaws F}.

Lemma sorted_by_value_length (l : list (nat * F)) :
  length (sorted_by_value l) = length l.
Proof. apply Permutation_length, sorted_permutes. Qed.

(** [k_nearest_neighbour] once the distances are known. *)
Lemma k_nearest_neighbour_unfold
    (train : ndarray F) (labels : list label) (t : list F) (k : Z) (ds : list F) :
  rmap (do_euclidean_distance t) (rows train) = Ok ds ->
  k_nearest_neighbour train labels t k
  = if Z.to_nat k <=? length ds then
      let nbrs := map fst (firstn (Z.to_nat k) (sorted_by_value (enumerate ds))) in
      rbind (take labels nbrs) (fun rs =>
      match sorted_votes (tally rs []) with
      | [] => Raise IndexError
      | p :: _ => Ok (fst p, nbrs)
      end)
    else Raise IndexError.
Proof.
  intros Hds. unfold k_nearest_neighbour, enumerate.
  rewrite distances_enumerate, Hds. cbn [rbind].
  rewrite first_entries, sorted_by_value_length.
  fold (enumerate ds). unfold enumerate at 1.
  rewrite length_combine, length_seq, Nat.min_id.
  destruct (Z.to_nat k <=? length ds); [|reflexivity].
  cbn [rbind]. rewrite count_votes_tally.
  destruct (take labels _); reflexivity.
Qed.

End AttemptLemmas.

Section AttemptNeighbours.
Context {F : Type} {SF : Scalar F}.

Lemma np_subtract1_same_length (x y : list F) :
  length x = length y -> np_subtract1 x y = Ok (zip_with fsub x y).
Proof.
  intros H. unfold np_subtract1. now rewrite H, Nat.eqb_refl.
Qed.

Lemma np_subtract1_mismatch (x y : list F) :
  length x <> length y -> length x <> 1 -> length y <> 1 ->
  np_subtract1 x y = Raise ValueError.
Proof.
  intros H Hx Hy. unfold np_subtract1.
  replace (length x =? length y) with false by (symmetry; now apply Nat.eqb_neq).
  destruct x as [|a [|a' x]]; destruct y as [|b [|b' y]]; simpl in *;
    try reflexivity; congruence.
Qed.

Lemma distances_ok (train : ndarray F) (t : list F) :
  wf train -> length t = ncols train ->
  exists ds, rmap (do_euclidean_distance t) (rows train) = Ok ds /\
             length ds = nrows train.
Proof.
  intros [Hlen Hall] Ht.
  destruct (@rmap_total _ _ (do_euclidean_distance t) (rows train)) as [ds Hds].
  - intros r Hr. rewrite Forall_forall in Hall. specialize (Hall r Hr).
    unfold do_euclidean_distance.
    rewrite np_subtract1_same_length by congruence. simpl. eauto.
  - exists ds. split; [exact Hds|].
    apply rmap_inv, Forall2_length in Hds. congruence.
Qed.

Lemma enumerate_fst (A : Type) (l : list A) : map fst (enumerate l) = seq 0 (length l).
Proof.
  unfold enumerate. generalize 0.
  induction l as [|x l IH]; intros s; simpl; [reflexivity|]. now rewrite IH.
Qed.

Lemma enumerate_entry (ds : list F) (p : nat * F) :
  In p (enumerate ds) -> fst p < length ds /\ snd p = nth (fst p) ds fzero.
Proof.
  unfold enumerate.
  assert (H : forall s, In p (combine (seq s (length ds)) ds) ->
                        s <= fst p < s + length ds /\ snd p = nth (fst p - s) ds fzero).
  { induction ds as [|d ds IH]; intros s Hin; simpl in Hin; [destruct Hin|].
    destruct Hin as [<-|Hin].
    - simpl. rewrite Nat.sub_diag. split; [lia | reflexivity].
    - destruct (IH _ Hin) as [Hr Hs]. simpl length. split; [lia|].
      rewrite Hs. replace (fst p - s) with (S (fst p - S s)) by lia. reflexivity. }
  intros Hin. destruct (H 0 Hin) as [Hr Hs].
  rewrite Nat.sub_0_r in Hs. split; [lia | exact Hs].
Qed.

Lemma enumerate_has (ds : list F) (j : nat) :
  j < length ds -> In (j, nth j ds fzero) (enumerate ds).
Proof.
  unfold enumerate.
  assert (H : forall s j, j < length ds ->
                In (s + j, nth j ds fzero) (combine (seq s (length ds)) ds)).
  { induction ds as [|d ds IH]; intros s i Hi; simpl in Hi; [lia|].
    destruct i as [|i]; simpl.
    - left. f_equal. lia.
    - right. replace (s + S i) with (S s + i) by lia. apply IH. lia. }
  intros Hj. exact (H 0 j Hj).
Qed.

Lemma NoDup_firstn (A : Type) (n : nat) (l : list A) : NoDup l -> NoDup (firstn n l).
Proof.
  intros H. rewrite <- (firstn_skipn n l) in H. now apply NoDup_app_remove_r in H.
Qed.

Context {PS : PySort F} {PL : PySortLaws F}.

(** The neighbours are as many as asked for, all different, and indices
    of training rows. *)
Lemma neighbours_are_rows (ds : list F) (K : nat) :
  K <= length ds ->
  let nbrs := map fst (firstn K (sorted_by_value (enumerate ds))) in
  length nbrs = K /\ NoDup nbrs /\ Forall (fun i => i < length ds) nbrs.
Proof.
  intros HK nbrs.
  assert (Hperm : Permutation (map fst (sorted_by_value (enumerate ds)))
                              (seq 0 (length ds))).
  { rewrite <- enumerate_fst. apply Permutation_map, sorted_permutes. }
  subst nbrs. rewrite <- firstn_map. split; [|split].
  - rewrite length_firstn, (Permutation_length Hperm), length_seq. lia.
  - apply NoDup_firstn.
    apply (Permutation_NoDup (Permutation_sym Hperm)), seq_NoDup.
  - apply Forall_forall. intros i Hi.
    apply (In_nth_error) in Hi. destruct Hi as [n Hn].
    assert (Hin : In i (map fst (sorted_by_value (enumerate ds)))).
    { apply nth_error_In in Hn.
      rewrite <- (firstn_skipn K (map fst _)). apply in_or_app. now left. }
    apply (Permutation_in _ Hperm), in_seq in Hin. lia.
Qed.

End AttemptNeighbours.

Section AttemptReturns.
Context {F : Type} {SF : Scalar F} {PS : PySort F} {PL : PySortLaws F}.

(** With the distances known, [k] between one and their number, and a
    label for every row, [k_nearest_neighbour] returns the first [k] sorted
    indices. *)
Lemma k_nearest_neighbour_returns
    (train : ndarray F) (labels : list label) (t : list F) (k : Z) (ds : list F) :
  rmap (do_euclidean_distance t) (rows train) = Ok ds ->
  1 <= Z.to_nat k <= length ds ->
  length ds <= length labels ->
  let nbrs := map fst (firstn (Z.to_nat k) (sorted_by_value (enumerate ds))) in
  exists p s,
    sorted_votes (tally (map (fun i => nth i labels EmptyString) nbrs) []) = p :: s /\
    k_nearest_neighbour train labels t k = Ok (fst p, nbrs).
Proof.
  intros Hds Hk Hlab nbrs.
  rewrite (@k_nearest_neighbour_unfold F SF PS PL train labels t k ds Hds).
  replace (Z.to_nat k <=? length ds) with true
    by (symmetry; apply Nat.leb_le; lia).
  assert (HK : Z.to_nat k <= length ds) by lia.
  destruct (@neighbours_are_rows F SF PS PL ds (Z.to_nat k) HK) as [Hn [_ Hb]].
  cbv zeta. fold nbrs. fold nbrs in Hn, Hb.
  rewrite take_ok
    by (eapply Forall_impl; [|exact Hb]; simpl; intros; lia).
  cbn [rbind].
  set (rs := map (fun i => nth i labels EmptyString) nbrs).
  assert (Hrs : rs <> []).
  { intros Heq. apply (f_equal (@length _)) in Heq.
    unfold rs in Heq. rewrite length_map, Hn in Heq. simpl in Heq. lia. }
  assert (Hv : sorted_votes (tally rs []) <> []).
  { intros Heq. apply (f_equal (@length _)) in Heq.
    rewrite sorted_votes_length in Heq.
    apply length_zero_iff_nil in Heq.
    revert Heq. apply tally_not_nil. now left. }
  destruct (sorted_votes (tally rs [])) as [|p s]; [congruence|].
  exists p, s. split; reflexivity.
Qed.

End AttemptReturns.

(** X10. When [k_nearest_neighbour] returns.  On a well-shaped training
    matrix with a label for every row: for a test vector as wide as the
    matrix it returns exactly when [1 <= k <= number of training rows], and
    raises [IndexError] for any other [k]; for a test vector of another
    width, neither width being one, it raises [ValueError] as soon as there
    is a training row. *)
Theorem k_nearest_neighbour_returns_iff :
  forall (F : Type) (SF : Scalar F) (PS : PySort F) (PL : PySortLaws F)
         (train : ndarray F) (labels : list label) (t : list F) (k : Z),
    wf train ->
    nrows train <= length labels ->
    (length t = ncols train ->
       ((1 <= k <= Z.of_nat (nrows train))%Z ->
          exists lbl nbrs, k_nearest_neighbour train labels t k = Ok (lbl, nbrs)) /\
       (~ (1 <= k <= Z.of_nat (nrows train))%Z ->
          k_nearest_neighbour train labels t k = Raise IndexError)) /\
    (length t <> ncols train -> length t <> 1 -> ncols train <> 1 ->
       0 < nrows train ->
       k_nearest_neighbour train labels t k = Raise ValueError).
Proof.
  intros F SF PS PL train labels t k Hwf Hlab. split.
  - intros Ht.
    destruct (@distances_ok F SF train t Hwf Ht) as [ds [Hds Hlen]].
    split.
    + intros Hk.
      assert (HK : 1 <= Z.to_nat k <= length ds) by lia.
      assert (Hl : length ds <= length labels) by lia.
      destruct (@k_nearest_neighbour_returns F SF PS PL train labels t k ds
                  Hds HK Hl) as [p [s [_ Heq]]].
      eauto.
    + intros Hk.
      rewrite (@k_nearest_neighbour_unfold F SF PS PL train labels t k ds Hds), Hlen.
      destruct (Z.to_nat k <=? nrows train) eqn:Hle; [|reflexivity].
      apply Nat.leb_le in Hle.
      assert (Hz : Z.to_nat k = 0) by lia.
      rewrite Hz. reflexivity.
  - intros Ht Ht1 Hc1 Hpos.
    destruct Hwf as [Hlen Hall].
    unfold k_nearest_neighbour, enumerate.
    rewrite distances_enumerate.
    destruct (rows train) as [|r rest] eqn:Hrows; [simpl in Hlen; lia|].
    inversion Hall as [|? ? Hr _]; subst.
    cbn [rmap]. unfold do_euclidean_distance at 1.
    rewrite np_subtract1_mismatch by congruence. reflexivity.
Qed.

Lemma k_nearest_neighbour_returns_iff_witness :
  (exists lbl nbrs,
     @k_nearest_neighbour _ _ insertion_sort train_3 labels_3 [0; 0]%float 3
     = Ok (lbl, nbrs)) /\
  @k_nearest_neighbour _ _ insertion_sort train_3 labels_3 [0; 0]%float 4
  = Raise IndexError /\
  @k_nearest_neighbour _ _ insertion_sort train_3 labels_3 [0; 0; 0]%float 3
  = Raise ValueError.
Proof.
  assert (Hwf : wf train_3) by (split; [reflexivity | repeat constructor]).
  assert (Hlab : nrows train_3 <= length labels_3) by (simpl; lia).
  pose proof (@k_nearest_neighbour_returns_iff float float64 insertion_sort
                (insertion_sort_laws float64) train_3 labels_3) as H.
  split; [|split].
  - destruct (H [0; 0]%float 3%Z Hwf Hlab) as [H1 _].
    destruct (H1 eq_refl) as [Hin _]. apply Hin. simpl. lia.
  - destruct (H [0; 0]%float 4%Z Hwf Hlab) as [H1 _].
    destruct (H1 eq_refl) as [_ Hout]. apply Hout. simpl. lia.
  - destruct (H [0; 0; 0]%float 3%Z Hwf Hlab) as [_ H2].
    apply H2; simpl; lia.
Defined.

Section AttemptOrder.
Context {F : Type} {SF : Scalar F}.

Lemma StronglySorted_nth (A : Type) (R : A -> A -> Prop) (l : list A) (d : A) :
  StronglySorted R l ->
  forall a b, a < b < length l -> R (nth a l d) (nth b l d).
Proof.
  induction 1 as [|x l Hs IH Hall]; intros a b Hab; simpl in Hab; [lia|].
  destruct b as [|b]; [lia|]. destruct a as [|a]; simpl.
  - rewrite Forall_forall in Hall. apply Hall, nth_In. lia.
  - apply IH. lia.
Qed.

Lemma StronglySorted_across (A : Type) (R : A -> A -> Prop) (l1 l2 : list A) :
  StronglySorted R (l1 ++ l2) ->
  forall p q, In p l1 -> In q l2 -> R p q.
Proof.
  induction l1 as [|x l1 IH]; intros Hs p q Hp Hq; [destruct Hp|].
  simpl in Hs. inversion Hs as [|? ? Hs' Hall]; subst.
  destruct Hp as [<-|Hp].
  - rewrite Forall_forall in Hall. apply Hall, in_or_app. now right.
  - now apply IH.
Qed.

Lemma enumerate_increasing (A : Type) (l : list A) :
  StronglySorted (fun p q : nat * A => fst p < fst q) (enumerate l).
Proof.
  unfold enumerate. generalize 0.
  induction l as [|x l IH]; intros s; simpl; constructor; [apply IH|].
  apply Forall_forall. intros [i y] Hq.
  apply in_combine_l, in_seq in Hq. simpl. lia.
Qed.

Context {PS : PySort F} {PL : PySortLaws F}.

Lemma k_nearest_neighbour_inv
    (train : ndarray F) (labels : list label) (t : list F) (k : Z)
    (lbl : label) (nbrs : list nat) :
  k_nearest_neighbour train labels t k = Ok (lbl, nbrs) ->
  exists ds rs,
    rmap (do_euclidean_distance t) (rows train) = Ok ds /\
    length ds = length (rows train) /\
    Z.to_nat k <= length ds /\
    nbrs = map fst (firstn (Z.to_nat k) (sorted_by_value (enumerate ds))) /\
    take labels nbrs = Ok rs /\
    exists c s, sorted_votes (tally rs []) = (lbl, c) :: s.
Proof.
  intros H.
  destruct (rmap (do_euclidean_distance t) (rows train)) as [ds|e] eqn:Hds.
  - rewrite (@k_nearest_neighbour_unfold F SF PS PL train labels t k ds Hds) in H.
    destruct (Z.to_nat k <=? length ds) eqn:Hle; [|discriminate].
    apply Nat.leb_le in Hle. cbv zeta in H.
    destruct (take labels _) as [rs|e] eqn:Ht; [|discriminate].
    cbn [rbind] in H.
    destruct (sorted_votes (tally rs [])) as [|[l c] s] eqn:Hv; [discriminate|].
    apply Ok_inj in H. injection H as -> <-.
    exists ds, rs. split; [reflexivity|]. split.
    { apply rmap_inv, Forall2_length in Hds. congruence. }
    split; [exact Hle|]. split; [reflexivity|]. split; [exact Ht|]. eauto.
  - unfold k_nearest_neighbour, enumerate in H.
    rewrite distances_enumerate, Hds in H. discriminate.
Qed.

Context {SO : ScalarOrder F}.

(** With every distance a number, the sorted items run from the nearest
    row to the farthest, rows as near as each other in the order of their
    indices. *)
Lemma sorted_distances (ds : list F) :
  no_nan ds ->
  let sd := sorted_by_value (enumerate ds) in
  StronglySorted before sd /\
  (forall p, In p sd -> fst p < length ds /\ snd p = nth (fst p) ds fzero) /\
  (forall j, j < length ds -> In (j, nth j ds fzero) sd).
Proof.
  intros Hnum sd.
  assert (Hn : Forall (fun p : nat * F => fisnan (snd p) = false) (enumerate ds)).
  { apply Forall_forall. intros p Hp.
    destruct (enumerate_entry ds p Hp) as [Hlt ->].
    unfold no_nan in Hnum. rewrite Forall_forall in Hnum.
    apply Hnum, nth_In, Hlt. }
  split; [|split].
  - subst sd. rewrite (sorted_stable Hn).
    apply stable_sorted_sorted; [exact Hn | apply enumerate_increasing].
  - intros p Hp. apply enumerate_entry.
    exact (Permutation_in _ (sorted_permutes (enumerate ds)) Hp).
  - intros j Hj.
    apply (Permutation_in _ (Permutation_sym (sorted_permutes (enumerate ds)))).
    now apply enumerate_has.
Qed.

End AttemptOrder.

(** X11. The neighbours [k_nearest_neighbour] returns are [k] different
    rows of the training matrix; when every distance is a number they are
    the [k] nearest rows, listed from the nearest on: each is no farther
    than the next and than any row left out, and of two rows as near as
    each other the one of lower index comes first. *)
Theorem k_nearest_neighbour_picks_nearest :
  forall (F : Type) (SF : Scalar F) (SO : ScalarOrder F)
         (PS : PySort F) (PL : PySortLaws F)
         (train : ndarray F) (labels : list label) (t : list F) (k : Z)
         (lbl : label) (nbrs : list nat),
    k_nearest_neighbour train labels t k = Ok (lbl, nbrs) ->
    exists ds,
      rmap (do_euclidean_distance t) (rows train) = Ok ds /\
      length nbrs = Z.to_nat k /\
      NoDup nbrs /\
      Forall (fun i => i < length (rows train)) nbrs /\
      (no_nan ds ->
         (forall a b, a < b < length nbrs ->
                      nearer ds (nth a nbrs 0) (nth b nbrs 0)) /\
         (forall i j, In i nbrs -> j < length ds -> ~ In j nbrs -> nearer ds i j)).
Proof.
  intros F SF SO PS PL train labels t k lbl nbrs H.
  destruct (@k_nearest_neighbour_inv F SF PS PL train labels t k lbl nbrs H)
    as [ds [rs [Hds [Hlen [HK [Hn _]]]]]].
  destruct (@neighbours_are_rows F SF PS PL ds (Z.to_nat k) HK) as [Hl [Hnd Hb]].
  rewrite <- Hn in Hl, Hnd, Hb.
  exists ds. split; [exact Hds|]. split; [exact Hl|]. split; [exact Hnd|].
  split; [now rewrite <- Hlen|].
  intros Hnum.
  destruct (@sorted_distances F SF PS PL SO ds Hnum) as [Hs [Hentry Hhas]].
  set (sd := sorted_by_value (enumerate ds)) in *.
  assert (Hsd : length sd = length ds).
  { unfold sd. rewrite sorted_by_value_length. unfold enumerate.
    rewrite length_combine, length_seq. apply Nat.min_id. }
  assert (Hnear : forall p q, In p sd -> In q sd -> before p q ->
                              nearer ds (fst p) (fst q)).
  { intros p q Hp Hq [H1 H2].
    destruct (Hentry p Hp) as [_ Ep]. destruct (Hentry q Hq) as [_ Eq].
    unfold nearer. rewrite <- Ep, <- Eq. split; assumption. }
  split.
  - intros a b Hab. rewrite Hl in Hab.
    assert (Hnth : forall c, c < Z.to_nat k -> nth c nbrs 0 = fst (nth c sd (0, fzero))).
    { intros c Hc. rewrite Hn.
      change 0 with (fst (0, @fzero F SF)) at 1. rewrite map_nth, nth_firstn.
      apply Nat.ltb_lt in Hc. now rewrite Hc. }
    rewrite !Hnth by lia.
    apply Hnear; [apply nth_In; lia | apply nth_In; lia |].
    apply StronglySorted_nth; [exact Hs | lia].
  - intros i j Hi Hj Hnot.
    rewrite Hn in Hi. apply in_map_iff in Hi as [p [<- Hp]].
    assert (Hq : In (j, nth j ds fzero) (skipn (Z.to_nat k) sd)).
    { specialize (Hhas j Hj). rewrite <- (firstn_skipn (Z.to_nat k) sd) in Hhas.
      apply in_app_or in Hhas as [Hin|Hin]; [|exact Hin].
      exfalso. apply Hnot. rewrite Hn. apply in_map_iff.
      exists (j, nth j ds fzero). split; [reflexivity | exact Hin]. }
    change (nearer ds (fst p) (fst (j, nth j ds fzero))).
    rewrite <- (firstn_skipn (Z.to_nat k) sd) in Hs.
    apply Hnear.
    + rewrite <- (firstn_skipn (Z.to_nat k) sd). apply in_or_app. now left.
    + rewrite <- (firstn_skipn (Z.to_nat k) sd). apply in_or_app. now right.
    + exact (StronglySorted_across _ _ Hs p _ Hp Hq).
Qed.

Lemma k_nearest_neighbour_picks_nearest_witness :
  @k_nearest_neighbour _ _ insertion_sort train_3 labels_3 [0; 0]%float 2
  = Ok ("a"%string, [0; 2]) /\
  exists ds,
    rmap (do_euclidean_distance [0; 0]%float) (rows train_3) = Ok ds /\
    length [0; 2] = Z.to_nat 2 /\
    NoDup [0; 2] /\
    Forall (fun i => i < length (rows train_3)) [0; 2] /\
    (no_nan ds ->
       (forall a b, a < b < length [0; 2] ->
                    nearer ds (nth a [0; 2] 0) (nth b [0; 2] 0)) /\
       (forall i j, In i [0; 2] -> j < length ds -> ~ In j [0; 2] -> nearer ds i j)).
Proof.
  assert (H : @k_nearest_neighbour _ _ insertion_sort train_3 labels_3 [0; 0]%float 2
              = Ok ("a"%string, [0; 2])) by (vm_compute; reflexivity).
  split; [exact H|].
  exact (@k_nearest_neighbour_picks_nearest float float64 float64_order
           insertion_sort (insertion_sort_laws float64)
           train_3 labels_3 [0; 0]%float 2%Z "a"%string [0; 2] H).
Defined.

(** ** The vote *)

Lemma votes_for_vote (l r : label) (v : list (label * nat)) :
  votes_for l (vote r v) = if String.eqb r l then S (votes_for l v) else votes_for l v.
Proof.
  induction v as [|[l' c] t IH]; simpl.
  - destruct (String.eqb r l); reflexivity.
  - destruct (String.eqb l' r) eqn:E1; simpl.
    + apply String.eqb_eq in E1. subst l'.
      destruct (String.eqb r l); reflexivity.
    + destruct (String.eqb l' l) eqn:E2; [|exact IH].
      apply String.eqb_eq in E2. subst l'.
      rewrite String.eqb_sym, E1. reflexivity.
Qed.

Lemma votes_for_tally (l : label) (rs : list label) (v : list (label * nat)) :
  votes_for l (tally rs v) = votes_for l v + count_occ string_dec rs l.
Proof.
  revert v. induction rs as [|r rs IH]; intros v; simpl; [lia|].
  fold (tally rs (vote r v)). rewrite IH, votes_for_vote.
  destruct (string_dec r l) as [->|Hne].
  - rewrite String.eqb_refl. lia.
  - apply String.eqb_neq in Hne. rewrite Hne. reflexivity.
Qed.

Lemma vote_known (r : label) (v : list (label * nat)) :
  In r (map fst v) -> map fst (vote r v) = map fst v.
Proof.
  induction v as [|[l c] t IH]; simpl; [tauto|].
  intros Hin. destruct (String.eqb l r) eqn:E; [reflexivity|].
  apply String.eqb_neq in E. simpl. f_equal. apply IH.
  destruct Hin; [congruence | assumption].
Qed.

Lemma vote_new (r : label) (v : list (label * nat)) :
  ~ In r (map fst v) -> vote r v = v ++ [(r, 1)].
Proof.
  induction v as [|[l c] t IH]; simpl; [reflexivity|].
  intros Hin. destruct (String.eqb l r) eqn:E.
  - apply String.eqb_eq in E. tauto.
  - f_equal. apply IH. tauto.
Qed.

Lemma vote_keys (r : label) (v : list (label * nat)) :
  exists more, map fst (vote r v) = map fst v ++ more /\
               (forall l, In l more -> l = r) /\
               (In r (map fst v) \/ more = [r]).
Proof.
  destruct (in_dec string_dec r (map fst v)) as [Hin|Hout].
  - exists []. rewrite (@vote_known _ _ Hin), app_nil_r.
    split; [reflexivity|]. split; [intros l []| now left].
  - exists [r]. rewrite (@vote_new _ _ Hout), map_app. simpl.
    split; [reflexivity|]. split; [|now right].
    intros l [<-|[]]. reflexivity.
Qed.

Lemma vote_nodup (r : label) (v : list (label * nat)) :
  NoDup (map fst v) -> NoDup (map fst (vote r v)).
Proof.
  intros Hnd. destruct (in_dec string_dec r (map fst v)) as [Hin|Hout].
  - now rewrite (@vote_known _ _ Hin).
  - rewrite (@vote_new _ _ Hout), map_app. simpl.
    apply NoDup_app; [exact Hnd | repeat constructor; intros [] |].
    intros x Hx [<-|[]]. exact (Hout Hx).
Qed.

Lemma tally_nodup (rs : list label) (v : list (label * nat)) :
  NoDup (map fst v) -> NoDup (map fst (tally rs v)).
Proof.
  revert v. induction rs as [|r rs IH]; intros v Hnd; simpl; [exact Hnd|].
  apply IH, vote_nodup, Hnd.
Qed.

Lemma tally_keys (rs : list label) (v : list (label * nat)) :
  exists more, map fst (tally rs v) = map fst v ++ more /\
               (forall l, In l more -> In l rs).
Proof.
  revert v. induction rs as [|r rs IH]; intros v; simpl.
  - exists []. rewrite app_nil_r. split; [reflexivity | intros l []].
  - destruct (vote_keys r v) as [m1 [E1 [H1 _]]].
    destruct (IH (vote r v)) as [m2 [E2 H2]].
    exists (m1 ++ m2). fold (tally rs (vote r v)).
    rewrite E2, E1, app_assoc. split; [reflexivity|].
    intros l Hl. apply in_app_or in Hl as [Hl|Hl]; [left; symmetry; now apply H1|].
    right. now apply H2.
Qed.

Lemma tally_has_key (rs : list label) (v : list (label * nat)) (l : label) :
  In l rs -> In l (map fst (tally rs v)).
Proof.
  revert v. induction rs as [|r rs IH]; intros v Hin; [destruct Hin|].
  simpl. fold (tally rs (vote r v)).
  destruct Hin as [->|Hin]; [|now apply IH].
  destruct (tally_keys rs (vote l v)) as [m [-> _]].
  apply in_or_app. left.
  destruct (vote_keys l v) as [m1 [-> [_ [H| ->]]]]; apply in_or_app;
    [now left | right; now left].
Qed.

Lemma votes_for_entry (l : label) (c : nat) (v : list (label * nat)) :
  NoDup (map fst v) -> In (l, c) v -> votes_for l v = c.
Proof.
  induction v as [|[l' c'] t IH]; simpl; intros Hnd Hin; [destruct Hin|].
  inversion Hnd as [|? ? Hout Hnd']; subst.
  destruct Hin as [Heq|Hin].
  - injection Heq as -> ->. now rewrite String.eqb_refl.
  - destruct (String.eqb l' l) eqn:E; [|now apply IH].
    apply String.eqb_eq in E. subst l'.
    exfalso. apply Hout. apply in_map_iff. exists (l, c). auto.
Qed.

Lemma votes_for_missing (l : label) (v : list (label * nat)) :
  ~ In l (map fst v) -> votes_for l v = 0.
Proof.
  induction v as [|[l' c'] t IH]; simpl; intros Hout; [reflexivity|].
  destruct (String.eqb l' l) eqn:E; [|apply IH; tauto].
  apply String.eqb_eq in E. tauto.
Qed.

(** The head of the sorted votes is the first entry of the highest
    count. *)
Lemma sorted_votes_head (v : list (label * nat)) (p : label * nat) (s : list (label * nat)) :
  sorted_votes v = p :: s ->
  exists pre post,
    v = pre ++ p :: post /\
    (forall q, In q pre -> snd q < snd p) /\
    (forall q, In q post -> snd q <= snd p).
Proof.
  revert p s. induction v as [|q t IH]; intros p s Heq; [discriminate|].
  simpl in Heq. destruct (sorted_votes t) as [|h s'] eqn:Ht.
  - assert (t = []).
    { apply length_zero_iff_nil. rewrite <- sorted_votes_length, Ht. reflexivity. }
    subst t. simpl in Heq. injection Heq as <- <-.
    exists [], []. split; [reflexivity|]. split; intros ? [].
  - destruct (IH h s' eq_refl) as [pre [post [Et [Hpre Hpost]]]].
    simpl in Heq. destruct (snd q <? snd h) eqn:Hlt.
    + injection Heq as <- <-. apply Nat.ltb_lt in Hlt.
      exists (q :: pre), post. rewrite Et. split; [reflexivity|].
      split; [|exact Hpost].
      intros x [<-|Hx]; [exact Hlt | now apply Hpre].
    + injection Heq as <- <-. apply Nat.ltb_ge in Hlt.
      exists [], t. split; [reflexivity|]. split; [intros ? []|].
      intros x Hx. rewrite Et in Hx.
      apply in_app_or in Hx as [Hx|[<-|Hx]].
      * specialize (Hpre x Hx). lia.
      * exact Hlt.
      * specialize (Hpost x Hx). lia.
Qed.

Lemma first_occurrence (x : label) (l : list label) :
  In x l -> exists pre post, l = pre ++ x :: post /\ ~ In x pre.
Proof.
  induction l as [|y l IH]; intros Hin; [destruct Hin|].
  destruct (string_dec y x) as [->|Hne].
  - exists [], l. split; [reflexivity | intros []].
  - destruct Hin as [Heq|Hin]; [congruence|].
    destruct (IH Hin) as [pre [post [-> Hout]]].
    exists (y :: pre), post. split; [reflexivity|].
    intros [Heq|Hp]; [congruence | tauto].
Qed.

Lemma nodup_split_unique (a b a' b' : list label) (x : label) :
  NoDup (a ++ x :: b) -> a ++ x :: b = a' ++ x :: b' -> a = a'.
Proof.
  revert a'. induction a as [|y a IH]; intros a' Hnd Heq.
  - destruct a' as [|y' a']; [reflexivity|].
    simpl in Heq. injection Heq as <- ->.
    inversion Hnd as [|? ? Hout _]; subst.
    exfalso. apply Hout, in_or_app. right. now left.
  - destruct a' as [|y' a'].
    + simpl in Heq. injection Heq as -> _.
      simpl in Hnd. inversion Hnd as [|? ? Hout _]; subst.
      exfalso. apply Hout, in_or_app. right. now left.
    + simpl in Heq. injection Heq as <- Heq.
      simpl in Hnd. inversion Hnd; subst. f_equal. now apply IH.
Qed.

(** The head of the sorted votes names the most frequent response, the
    one met first among the most frequent. *)
Lemma sorted_votes_most_voted (rs : list label) (lbl : label) (c : nat)
    (s : list (label * nat)) :
  sorted_votes (tally rs []) = (lbl, c) :: s -> most_voted rs lbl.
Proof.
  intros Hhead.
  destruct (@sorted_votes_head _ _ _ Hhead) as [pre_v [post_v [Ev [Hpre Hpost]]]].
  simpl in Hpre, Hpost.
  assert (Hnd : NoDup (map fst (tally rs []))) by (apply tally_nodup; constructor).
  assert (Hcount : forall l, votes_for l (tally rs []) = count_occ string_dec rs l).
  { intros l. now rewrite votes_for_tally. }
  assert (Hc : count_occ string_dec rs lbl = c).
  { rewrite <- Hcount. apply votes_for_entry; [exact Hnd|].
    rewrite Ev. apply in_or_app. right. now left. }
  assert (Hle : forall l, count_occ string_dec rs l <= c).
  { intros l. rewrite <- Hcount.
    destruct (in_dec string_dec l (map fst (tally rs []))) as [Hin|Hout].
    - apply in_map_iff in Hin as [[l' c'] [El Hin]]. simpl in El. subst l'.
      rewrite (@votes_for_entry _ _ _ Hnd Hin).
      rewrite Ev in Hin. apply in_app_or in Hin as [Hin|[Heq|Hin]].
      + specialize (Hpre _ Hin). simpl in Hpre. lia.
      + injection Heq as _ <-. lia.
      + specialize (Hpost _ Hin). simpl in Hpost. lia.
    - rewrite (@votes_for_missing _ _ Hout). lia. }
  split; [intros l; rewrite Hc; apply Hle|].
  assert (Hin : In lbl rs).
  { destruct (tally_keys rs []) as [more [Ek Hmore]]. simpl in Ek.
    apply Hmore. rewrite <- Ek, Ev, map_app. apply in_or_app. right. now left. }
  destruct (@first_occurrence _ _ Hin) as [pre [post [Ers Hfirst]]].
  exists pre, post. split; [exact Ers|]. split; [exact Hfirst|].
  intros l Hl. rewrite Hc, <- Hcount.
  (* the keys met before the winner's first vote *)
  assert (Ekeys : map fst pre_v = map fst (tally pre [])).
  { assert (Hout : ~ In lbl (map fst (tally pre []))).
    { destruct (tally_keys pre []) as [m [Ek Hm]]. simpl in Ek.
      rewrite Ek. intros Hx. apply Hfirst. now apply Hm. }
    assert (Esplit : tally rs [] = tally post (tally pre [] ++ [(lbl, 1)])).
    { rewrite Ers. unfold tally. rewrite fold_left_app. simpl.
      fold (tally pre []). now rewrite (@vote_new _ _ Hout). }
    destruct (tally_keys post (tally pre [] ++ [(lbl, 1)])) as [m [Ek _]].
    rewrite <- Esplit, map_app in Ek. simpl in Ek. rewrite <- app_assoc in Ek.
    simpl in Ek.
    assert (Ek' : map fst (tally rs []) = map fst pre_v ++ lbl :: map fst post_v).
    { rewrite Ev, map_app. reflexivity. }
    apply (@nodup_split_unique _ (map fst post_v) _ m lbl).
    - rewrite <- Ek'. exact Hnd.
    - rewrite <- Ek'. exact Ek. }
  assert (Hkey : In l (map fst pre_v)).
  { rewrite Ekeys. now apply tally_has_key. }
  apply in_map_iff in Hkey as [[l' c'] [El Hin']]. simpl in El. subst l'.
  assert (Hin'' : In (l, c') (tally rs [])).
  { rewrite Ev. apply in_or_app. now left. }
  rewrite (@votes_for_entry _ _ _ Hnd Hin'').
  exact (Hpre _ Hin').
Qed.

Section AttemptVote.
Context {F : Type} {SF : Scalar F} {PS : PySort F}.

Lemma k_nearest_neighbour_votes
    (train : ndarray F) (labels : list label) (t : list F) (k : Z)
    (lbl : label) (nbrs : list nat) :
  k_nearest_neighbour train labels t k = Ok (lbl, nbrs) ->
  exists rs c s,
    take labels nbrs = Ok rs /\ sorted_votes (tally rs []) = (lbl, c) :: s.
Proof.
  unfold k_nearest_neighbour. intros H.
  destruct (rmap _ (enumerate (rows train))) as [distances|e]; [|discriminate].
  cbn [rbind] in H. cbv zeta in H.
  destruct (rmap _ (seq 0 (Z.to_nat k))) as [neighbours|e]; [|discriminate].
  cbn [rbind] in H. rewrite count_votes_tally in H.
  destruct (take labels neighbours) as [rs|e] eqn:Ht; [|discriminate].
  cbn [rbind] in H.
  destruct (sorted_votes (tally rs [])) as [|[l c] s] eqn:Hv; [discriminate|].
  apply Ok_inj in H. injection H as -> <-.
  exists rs, c, s. split; [exact Ht | exact Hv].
Qed.

End AttemptVote.

(** X12. The label [k_nearest_neighbour] returns is the majority vote of
    the neighbours: no label is borne by more of them, and among the labels
    borne by as many it is the one whose first bearer is nearest in the
    list of neighbours.  This holds for whatever order [sorted] gave the
    distances. *)
Theorem k_nearest_neighbour_majority :
  forall (F : Type) (SF : Scalar F) (PS : PySort F)
         (train : ndarray F) (labels : list label) (t : list F) (k : Z)
         (lbl : label) (nbrs : list nat),
    k_nearest_neighbour train labels t k = Ok (lbl, nbrs) ->
    exists responses,
      take labels nbrs = Ok responses /\
      most_voted responses lbl.
Proof.
  intros F SF PS train labels t k lbl nbrs H.
  destruct (@k_nearest_neighbour_votes F SF PS train labels t k lbl nbrs H)
    as [rs [c [s [Ht Hv]]]].
  exists rs. split; [exact Ht|].
  exact (@sorted_votes_most_voted rs lbl c s Hv).
Qed.

Lemma k_nearest_neighbour_majority_witness :
  @k_nearest_neighbour _ _ insertion_sort train_3 labels_3 [0; 0]%float 3
  = Ok ("b"%string, [0; 2; 1]) /\
  exists responses,
    take labels_3 [0; 2; 1] = Ok responses /\
    most_voted responses "b"%string.
Proof.
  assert (H : @k_nearest_neighbour _ _ insertion_sort train_3 labels_3 [0; 0]%float 3
              = Ok ("b"%string, [0; 2; 1])) by (vm_compute; reflexivity).
  split; [exact H|].
  exact (@k_nearest_neighbour_majority float float64 insertion_sort
           train_3 labels_3 [0; 0]%float 3%Z "b"%string [0; 2; 1] H).
Defined.

(** ** The page classifier of the attempt *)

Section AttemptPageLemmas.
Context {F : Type} {SF : Scalar F} {PS : PySort F}.

(** The loop returns only when there is no row to label. *)
Lemma label_rows_returns (train : ndarray F) (labels_train : list label) (k : Z)
    (tests : list (list F)) (labels out : list nat) :
  label_rows train labels_train k tests labels = Returns out ->
  tests = [] /\ out = labels.
Proof.
  destruct tests as [|t rest]; simpl.
  - intros H. injection H as <-. split; reflexivity.
  - destruct (k_nearest_neighbour train labels_train t k) as [[result nbrs]|e];
      discriminate.
Qed.

End AttemptPageLemmas.

(** X13. [classify_page_attempt] never returns a label.  On a page with a
    row it raises, whatever the model; it returns only on a page with no
    row, and then the page's shape.  Without the key ['counter'] it raises
    [KeyError] and changes nothing; with it, the counter is printed and
    stepped by one on every call, raising or not, and the trained model is
    left as it was. *)
Theorem classify_page_attempt_never_labels :
  forall (F : Type) (SF : Scalar F) (PS : PySort F)
         (page : ndarray F) (w : attempt_world F),
    (forall out, fst (classify_page_attempt page w) = Returns out ->
                 rows page = [] /\ out = [nrows page; ncols page]) /\
    (rows page <> [] -> exists e, fst (classify_page_attempt page w) = Raises e) /\
    (forall c fv, rows page = [] -> counter w = Some c ->
                  fvectors_train (stored w) = Some fv ->
                  fst (classify_page_attempt page w)
                  = Returns [nrows page; ncols page]) /\
    (counter w = None ->
     classify_page_attempt page w = (Raises (Builtin KeyError), w)) /\
    (forall c, counter w = Some c ->
               snd (classify_page_attempt page w)
               = AttemptWorld (stored w) (Some (c + 1)%Z) (printed w ++ [c])).
Proof.
  intros F SF PS page w. unfold classify_page_attempt.
  destruct (counter w) as [c|]; [|repeat split; try discriminate; simpl].
  - destruct (fvectors_train (stored w)) as [fv|]; cbv zeta; simpl.
    + repeat split.
      * apply label_rows_returns in H. tauto.
      * apply label_rows_returns in H. tauto.
      * intros Hrows.
        destruct (label_rows (np_array fv) (labels_train (stored w)) 3
                             (rows page) [nrows page; ncols page]) as [out|e] eqn:E.
        -- apply label_rows_returns in E. tauto.
        -- eauto.
      * intros c' fv' Hrows _ _. rewrite Hrows. reflexivity.
      * discriminate.
      * intros c' Hc. injection Hc as <-. reflexivity.
    + repeat split; try discriminate.
      * eauto.
      * intros c' Hc. injection Hc as <-. reflexivity.
  - intros _. eauto.
Qed.
